(** * play_store_grossing: the scraper's extraction pipeline, embedded and verified

    The development follows [play_store_grossing.py]: the two compiled
    patterns and the backtracking matcher that runs them, [extract_apps],
    [trim_entries], [build_url], the two output formatters and [main]. *)

From Stdlib Require Import ZArith NArith Ascii String.
From Stdlib Require DecimalFacts DecimalPos DecimalZ.
From stdpp Require Import base tactics option list numbers gmap.

Set Warnings "-clear-no-such-hyp,-level-tolerance,-register-all".

Local Open Scope N_scope.

(** ** Text

    A Python [str] is a sequence of code points. *)

Abbreviation char := N (only parsing).
Abbreviation str := (list N) (only parsing).

Fixpoint ord_string (s : string) : str :=
  match s with
  | EmptyString => []
  | String a s' => N_of_ascii a :: ord_string s'
  end.

Definition U (s : string) : str := ord_string s.
Arguments U s%_string.

Definition dquote : char := 34.
Definition amp : char := 38.
Definition lt_sign : char := 60.
Definition gt_sign : char := 62.

(** ** The regular-expression engine

    Both patterns of the module are sequences of literals, greedy repeats of
    a negated character set and one capturing group, so the compiled code is
    a list of three kinds of opcode. *)

Module Sre.

Inductive opcode :=
| LITERAL (c : char)
| MAX_REPEAT_NOT_IN (lo : nat) (excl : list char)
| MARK (i : nat).

Record Pattern := { ignorecase : bool; code : list opcode }.

(** Upper-case partner of an ASCII lower-case letter. *)
Definition ascii_upper (c : char) : char :=
  if (97 <=? c) && (c <=? 122) then c - 32 else c.

(** The code points that lower-case (simple Unicode mapping, plus the
    compiler's equivalence table) to the ASCII pattern character [c]:
    [c] itself, its ASCII capital, U+0130 and U+0131 for [i], U+017F for
    [s], U+212A for [k]. *)
Definition folds_to (c x : char) : bool :=
  (x =? c) || (x =? ascii_upper c)
  || ((c =? 105) && ((x =? 304) || (x =? 305)))
  || ((c =? 115) && (x =? 383))
  || ((c =? 107) && (x =? 8490)).

Definition literal_ok (ic : bool) (c x : char) : bool :=
  if ic then folds_to c x else x =? c.

Definition in_set (x : char) (set : list char) : bool :=
  existsb (N.eqb x) set.
Arguments in_set : simpl never.

(** Positions in the subject are kept as the suffix that starts there. *)
Record Marks := { mark_open : option str; mark_close : option str }.

Definition no_marks : Marks := {| mark_open := None; mark_close := None |}.

Definition set_mark (i : nat) (s : str) (mk : Marks) : Marks :=
  match i with
  | O => {| mark_open := Some s; mark_close := mark_close mk |}
  | _ => {| mark_open := mark_open mk; mark_close := Some s |}
  end.

(** Greedy repeat of a one-character item: take as many characters as
    possible, then give them back one at a time until the rest of the
    pattern [k] matches, never going below [lo] repetitions. *)
Fixpoint max_repeat {R} (excl : list char) (k : str → option R)
    (lo : nat) (s : str) : option R :=
  let stop := match lo with O => k s | S _ => None end in
  match s with
  | [] => stop
  | x :: s' =>
      if in_set x excl then stop
      else match max_repeat excl k (pred lo) s' with
           | Some r => Some r
           | None => stop
           end
  end.

Fixpoint run (ic : bool) (p : list opcode) (s : str) (mk : Marks)
    : option (Marks * str) :=
  match p with
  | [] => Some (mk, s)
  | LITERAL c :: p' =>
      match s with
      | x :: s' => if literal_ok ic c x then run ic p' s' mk else None
      | [] => None
      end
  | MAX_REPEAT_NOT_IN lo excl :: p' =>
      max_repeat excl (fun s' => run ic p' s' mk) lo s
  | MARK i :: p' => run ic p' s (set_mark i s mk)
  end.

(** A match object: where it starts, where it ends, and the group marks. *)
Record Match := { m_start : str; m_end : str; m_marks : Marks }.

(** The text between two positions of the same subject. *)
Definition span (from to : str) : str :=
  take (length from - length to) from.

(** [group m 0] is the whole match and [group m 1] the capturing group;
    [None] stands for a group that did not take part in the match or does
    not exist. *)
Definition group (m : Match) (i : nat) : option str :=
  match i with
  | O => Some (span (m_start m) (m_end m))
  | 1%nat =>
      match mark_open (m_marks m), mark_close (m_marks m) with
      | Some a, Some b => Some (span a b)
      | _, _ => None
      end
  | _ => None
  end.

Definition match_at (p : Pattern) (s : str) : option Match :=
  match run (ignorecase p) (code p) s no_marks with
  | Some (mk, rest) => Some {| m_start := s; m_end := rest; m_marks := mk |}
  | None => None
  end.

(** [Pattern.search]: the match at the leftmost position that has one. *)
Fixpoint search (p : Pattern) (s : str) : option Match :=
  match match_at p s with
  | Some m => Some m
  | None => match s with
            | [] => None
            | _ :: s' => search p s'
            end
  end.

(** [Pattern.finditer]: successive non-overlapping matches, each search
    resuming where the previous match ended.  Both patterns of the module
    start with a literal, so a match is never empty; after an empty match
    the scan would step one character forward. *)
Fixpoint finditer_from (fuel : nat) (p : Pattern) (s : str) : list Match :=
  match fuel with
  | O => []
  | S fuel' =>
      match search p s with
      | None => []
      | Some m =>
          m :: (if (length (m_end m) <? length (m_start m))%nat
                then finditer_from fuel' p (m_end m)
                else match m_end m with
                     | [] => []
                     | _ :: s' => finditer_from fuel' p s'
                     end)
      end
  end.

Definition finditer (p : Pattern) (s : str) : list Match :=
  finditer_from (S (length s)) p s.

Definition literals (s : str) : list opcode := map LITERAL s.

End Sre.

Import Sre.

(** ** Module constants *)

Definition BASE_URL : str :=
  U "https://play.google.com/store/apps/collection/topgrossing".

Definition HREF_PREFIX : str :=
  U "href=" ++ [dquote] ++ U "/store/apps/details?id=".

(** The pattern [<a[^>]+href=Q/store/apps/details\?id=([^&Q]+)[^Q]*Q[^>]*>[^<]*]
    (writing Q for the double quote), compiled with [re.IGNORECASE]. *)
Definition APP_LINK_RE : Pattern :=
  {| ignorecase := true;
     code := literals (U "<a")
             ++ [MAX_REPEAT_NOT_IN 1 [gt_sign]]
             ++ literals HREF_PREFIX
             ++ [MARK 0; MAX_REPEAT_NOT_IN 1 [amp; dquote]; MARK 1;
                 MAX_REPEAT_NOT_IN 0 [dquote];
                 LITERAL dquote;
                 MAX_REPEAT_NOT_IN 0 [gt_sign];
                 LITERAL gt_sign;
                 MAX_REPEAT_NOT_IN 0 [lt_sign]] |}.

Definition ARIA_PREFIX : str := U "aria-label=" ++ [dquote].

(** The pattern [aria-label=Q([^Q]+)Q], case-sensitive. *)
Definition ARIA_LABEL_RE : Pattern :=
  {| ignorecase := false;
     code := literals ARIA_PREFIX
             ++ [MARK 0; MAX_REPEAT_NOT_IN 1 [dquote]; MARK 1;
                 LITERAL dquote] |}.

(** ** The data model *)

Record AppEntry := { rank : Z; app_id : str; title : str }.

(** [str.strip()]: the code points for which [str.isspace] holds. *)
Definition isspace (c : char) : bool :=
  ((9 <=? c) && (c <=? 13)) || ((28 <=? c) && (c <=? 32))
  || (c =? 133) || (c =? 160) || (c =? 5760)
  || ((8192 <=? c) && (c <=? 8202))
  || (c =? 8232) || (c =? 8233) || (c =? 8239) || (c =? 8287)
  || (c =? 12288).

Fixpoint lstrip (s : str) : str :=
  match s with
  | c :: s' => if isspace c then lstrip s' else s
  | [] => []
  end.

Definition strip (s : str) : str := rev (lstrip (rev (lstrip s))).

(** ** [html.unescape]

    The function replaces character references using the tables of the
    standard library.  It does not return on every text: a decimal
    reference, an ampersand and a number sign followed by decimal digits,
    is converted with [int], which refuses a number of more than 4300
    digits (the default limit of the interpreter) with [ValueError].
    Hexadecimal and named references are not subject to the limit.  The
    text that a returning call computes is a parameter, [value]; [None]
    stands for the exception. *)
Definition MAX_STR_DIGITS : nat := 4300.

Definition ascii_digit (c : char) : bool := (48 <=? c) && (c <=? 57).

(** The length of the run of decimal digits at the start of [s]. *)
Fixpoint digits_run (s : str) : nat :=
  match s with
  | c :: s' => if ascii_digit c then S (digits_run s') else O
  | [] => O
  end.

(** Some decimal reference of [s] has more digits than [int] accepts. *)
Fixpoint long_charref (s : str) : bool :=
  match s with
  | [] => false
  | c :: s' =>
      match s' with
      | h :: ds =>
          if (c =? amp) && (h =? 35)
          then if (MAX_STR_DIGITS <? digits_run ds)%nat then true
               else long_charref s'
          else long_charref s'
      | [] => false
      end
  end.

Definition html_unescape (value : str → str) (s : str) : option str :=
  if long_charref s then None else Some (value s).

Section Extraction.

(** The extraction logic uses [html.unescape] as a black box, so the
    function is a parameter here: a call returns a text or raises.
    [html_unescape] is the function of the library, its values left
    open. *)
Variable unescape : str → option str.

(** One iteration of the loop of [extract_apps].  The result is [None] when
    the iteration raises: [unescape] does, or a group that is not there is
    used. *)
Definition extract_step (st : list AppEntry * gset str) (m : Match)
    : option (list AppEntry * gset str) :=
  let '(entries, seen) := st in
  id ← group m 1;
  if decide (id ∈ seen) then Some (entries, seen)
  else
    anchor_tag ← group m 0;
    title ← match search ARIA_LABEL_RE anchor_tag with
            | Some label_match =>
                v ← group label_match 1; strip <$> unescape v
            | None => Some []
            end;
    Some (entries ++ [{| rank := Z.of_nat (length entries) + 1;
                         app_id := id; title := title |}],
          {[ id ]} ∪ seen).

Fixpoint extract_loop (st : list AppEntry * gset str) (ms : list Match)
    : option (list AppEntry * gset str) :=
  match ms with
  | [] => Some st
  | m :: ms' => st' ← extract_step st m; extract_loop st' ms'
  end.

Definition extract_apps (html : str) : option (list AppEntry) :=
  fst <$> extract_loop ([], ∅) (finditer APP_LINK_RE html).

End Extraction.

(** [entries[:limit]]: a negative bound counts from the end of the list. *)
Definition slice_to {A} (l : list A) (stop : Z) : list A :=
  if (stop <? 0)%Z
  then take (Z.to_nat (Z.of_nat (length l) + stop)) l
  else take (Z.to_nat stop) l.

Definition trim_entries (entries : list AppEntry) (limit : option Z)
    : list AppEntry :=
  match limit with
  | None => entries
  | Some n => slice_to entries n
  end.

(** * The URL builder *)

Module Url.

(** [str.encode('utf-8')] with strict error handling: lone surrogates (and
    numbers that are not code points) cannot be encoded. *)
Definition utf8_char (c : char) : option (list N) :=
  if c <? 128 then Some [c]
  else if c <? 2048 then Some [192 + c / 64; 128 + c mod 64]
  else if c <? 65536 then
    if (55296 <=? c) && (c <=? 57343) then None
    else Some [224 + c / 4096; 128 + (c / 64) mod 64; 128 + c mod 64]
  else if c <? 1114112 then
    Some [240 + c / 262144; 128 + (c / 4096) mod 64;
          128 + (c / 64) mod 64; 128 + c mod 64]
  else None.

Fixpoint utf8_encode (s : str) : option (list N) :=
  match s with
  | [] => Some []
  | c :: s' => bs ← utf8_char c; rest ← utf8_encode s'; Some (bs ++ rest)
  end.

(** Letters, digits and [_.-~] are never quoted. *)
Definition always_safe (b : N) : bool :=
  ((65 <=? b) && (b <=? 90)) || ((97 <=? b) && (b <=? 122))
  || ((48 <=? b) && (b <=? 57))
  || (b =? 95) || (b =? 46) || (b =? 45) || (b =? 126).

Definition hex_upper (n : N) : char :=
  if n <? 10 then 48 + n else 55 + n.

Definition quoter (safe : list N) (b : N) : str :=
  if always_safe b || in_set b safe then [b]
  else [37; hex_upper (b / 16); hex_upper (b mod 16)].

(** [urllib.parse.quote] *)
Definition quote (s : str) (safe : list N) : option str :=
  bs ← utf8_encode s; Some (flat_map (quoter safe) bs).

Definition replace_char (old new : char) (s : str) : str :=
  map (λ c, if c =? old then new else c) s.

(** [urllib.parse.quote_plus] *)
Definition quote_plus (s : str) : option str :=
  if in_set 32 s then replace_char 32 43 <$> quote s [32]
  else quote s [].

Fixpoint str_join (sep : str) (parts : list str) : str :=
  match parts with
  | [] => []
  | [p] => p
  | p :: rest => p ++ sep ++ str_join sep rest
  end.

(** [urllib.parse.urlencode] on a dictionary of strings, in insertion
    order. *)
Definition urlencode (query : list (str * str)) : option str :=
  parts ← mapM (λ kv, k ← quote_plus kv.1; v ← quote_plus kv.2;
                      Some (k ++ [61] ++ v)) query;
  Some (str_join [amp] parts).

Definition build_url (language region : str) (category : option str)
    : option str :=
  let params := [(U "hl", language); (U "gl", region)] in
  let params :=
    match category with
    | Some ((_ :: _) as c) => params ++ [(U "category", c)]
    | _ => params
    end in
  q ← urlencode params; Some (BASE_URL ++ [63] ++ q).

End Url.

(** * The output formatters and the driver *)

Module Output.
Import Url.

(** [str(n)] for an integer: decimal digits, with a minus sign in front of
    a negative number. *)
Fixpoint uint_digits (u : Decimal.uint) : str :=
  match u with
  | Decimal.Nil => []
  | Decimal.D0 u => 48 :: uint_digits u
  | Decimal.D1 u => 49 :: uint_digits u
  | Decimal.D2 u => 50 :: uint_digits u
  | Decimal.D3 u => 51 :: uint_digits u
  | Decimal.D4 u => 52 :: uint_digits u
  | Decimal.D5 u => 53 :: uint_digits u
  | Decimal.D6 u => 54 :: uint_digits u
  | Decimal.D7 u => 55 :: uint_digits u
  | Decimal.D8 u => 56 :: uint_digits u
  | Decimal.D9 u => 57 :: uint_digits u
  end.

Definition int_str (z : Z) : str :=
  match Z.to_int z with
  | Decimal.Pos u => uint_digits u
  | Decimal.Neg u => 45 :: uint_digits u
  end.

(** ** CSV: [csv.writer] with the default dialect

    The delimiter is a comma, the quote character the double quote, the
    line terminator CR LF; a field is quoted when it contains one of these
    characters, and a quote inside it is doubled.  Every row of this module
    has three fields, so the rule for a lone empty field does not arise. *)
Definition needs_quotes (c : char) : bool :=
  (c =? 44) || (c =? dquote) || (c =? 13) || (c =? 10).

Definition csv_body (s : str) : str :=
  flat_map (λ c, if c =? dquote then [dquote; dquote] else [c]) s.

Definition csv_field (s : str) : str :=
  if existsb needs_quotes s then dquote :: csv_body s ++ [dquote]
  else csv_body s.

Definition writerow (fields : list str) : str :=
  str_join [44] (map csv_field fields) ++ [13; 10].

Definition output_csv (entries : list AppEntry) : str :=
  writerow [U "rank"; U "app_id"; U "title"]
  ++ flat_map (λ entry, writerow [int_str (rank entry); app_id entry;
                                  title entry]) entries.

(** ** JSON: [json.dump] with [ensure_ascii=False] and [indent=2] *)
Inductive json :=
| JInt (z : Z)
| JStr (s : str)
| JList (items : list json)
| JDict (items : list (str * json)).

Definition hex_lower (n : N) : char :=
  if n <? 10 then 48 + n else 87 + n.

(** The escape table of the encoder: backslash, double quote, the five
    short escapes, and [\u00XX] for the other control characters. *)
Definition escape_char (c : char) : str :=
  if c =? 92 then [92; 92]
  else if c =? dquote then [92; dquote]
  else if c =? 8 then [92; 98]
  else if c =? 12 then [92; 102]
  else if c =? 10 then [92; 110]
  else if c =? 13 then [92; 114]
  else if c =? 9 then [92; 116]
  else if c <? 32 then [92; 117; 48; 48; hex_lower (c / 16); hex_lower (c mod 16)]
  else [c].

Definition encode_basestring (s : str) : str :=
  dquote :: flat_map escape_char s ++ [dquote].

Definition newline_indent (level : nat) : str :=
  10 :: repeat 32 (2 * level).

Fixpoint iterencode (level : nat) (v : json) {struct v} : str :=
  match v with
  | JInt z => int_str z
  | JStr s => encode_basestring s
  | JList [] => U "[]"
  | JList items =>
      [91] ++ newline_indent (S level)
      ++ str_join ([44] ++ newline_indent (S level))
              (map (iterencode (S level)) items)
      ++ newline_indent level ++ [93]
  | JDict [] => U "{}"
  | JDict items =>
      [123] ++ newline_indent (S level)
      ++ str_join ([44] ++ newline_indent (S level))
              (map (λ kv, encode_basestring (fst kv) ++ [58; 32]
                          ++ iterencode (S level) (snd kv)) items)
      ++ newline_indent level ++ [125]
  end.

Definition entry_json (entry : AppEntry) : json :=
  JDict [(U "rank", JInt (rank entry)); (U "app_id", JStr (app_id entry));
         (U "title", JStr (title entry))].

Definition output_json (entries : list AppEntry) : str :=
  iterencode 0 (JList (map entry_json entries)) ++ [10].

(** ** [main]

    The parsed options are the input; fetching the page is the one step
    that talks to the outside, so [fetch_html] is a parameter, [None]
    standing for a transport error.  A run that does not raise ends with
    what was written to the two streams and the exit status. *)
Record Namespace := {
  hl : str;
  gl : str;
  category : option str;
  limit : Z;
  json_flag : bool
}.

Record Run := { stdout : str; stderr : str; status : Z }.

Definition NO_ENTRIES : str :=
  U "No entries found. HTML structure may have changed." ++ [10].

Section Main.

Variable unescape : str → option str.
Variable fetch_html : str → option str.

Definition main (args : Namespace) : option Run :=
  url ← build_url (hl args) (gl args) (category args);
  html ← fetch_html url;
  found ← extract_apps unescape html;
  let entries := trim_entries found (Some (limit args)) in
  let out := if json_flag args then output_json entries
             else output_csv entries in
  match entries with
  | [] => Some {| stdout := out; stderr := NO_ENTRIES; status := 1 |}
  | _ => Some {| stdout := out; stderr := []; status := 0 |}
  end.

End Main.

End Output.

(** * Reading the output back *)

Module Readers.
Import Output.

(** ** A JSON reader

    The decoder of the [json] module, restricted to what the formatter can
    produce: strings, integers, arrays and objects.  On [true], [false],
    [null] and on numbers with a fraction or an exponent it gives up, so
    whenever it returns a value the full decoder returns the same one.  An
    object is returned as its list of members in document order. *)
Definition is_ws (c : char) : bool :=
  (c =? 32) || (c =? 9) || (c =? 10) || (c =? 13).

Fixpoint skip_ws (s : str) : str :=
  match s with
  | c :: s' => if is_ws c then skip_ws s' else s
  | [] => []
  end.

Definition hex_val (c : char) : option N :=
  if (48 <=? c) && (c <=? 57) then Some (c - 48)
  else if (97 <=? c) && (c <=? 102) then Some (c - 87)
  else if (65 <=? c) && (c <=? 70) then Some (c - 55)
  else None.

Definition hex4 (a b c d : char) : option N :=
  x ← hex_val a; y ← hex_val b; z ← hex_val c; w ← hex_val d;
  Some (((x * 16 + y) * 16 + z) * 16 + w).

(** The one-character escapes. *)
Definition backslash (e : char) : option char :=
  if e =? dquote then Some dquote
  else if e =? 92 then Some 92
  else if e =? 47 then Some 47
  else if e =? 98 then Some 8
  else if e =? 102 then Some 12
  else if e =? 110 then Some 10
  else if e =? 114 then Some 13
  else if e =? 116 then Some 9
  else None.

(** [scanstring], entered after the opening quote: the decoded string and
    the text after the closing quote. *)
Fixpoint scanstring (s : str) : option (str * str) :=
  match s with
  | [] => None
  | c :: s1 =>
      if c =? dquote then Some ([], s1)
      else if c =? 92 then
        match s1 with
        | [] => None
        | e :: s2 =>
            if e =? 117 then
              match s2 with
              | a :: b :: c' :: d :: s3 =>
                  uni ← hex4 a b c' d;
                  let plain := '(r, rest) ← scanstring s3;
                               Some (uni :: r, rest) in
                  if (55296 <=? uni) && (uni <=? 56319) then
                    match s3 with
                    | e1 :: e2 :: s4 =>
                        if (e1 =? 92) && (e2 =? 117) then
                          match s4 with
                          | a2 :: b2 :: c2 :: d2 :: s5 =>
                              uni2 ← hex4 a2 b2 c2 d2;
                              if (56320 <=? uni2) && (uni2 <=? 57343) then
                                '(r, rest) ← scanstring s5;
                                Some (65536 + (uni - 55296) * 1024
                                      + (uni2 - 56320) :: r, rest)
                              else plain
                          | _ => None
                          end
                        else plain
                    | _ => plain
                    end
                  else plain
              | _ => None
              end
            else
              ch ← backslash e;
              '(r, rest) ← scanstring s2; Some (ch :: r, rest)
        end
      else if c <? 32 then None
      else '(r, rest) ← scanstring s1; Some (c :: r, rest)
  end.

Definition is_digit (c : char) : bool := (48 <=? c) && (c <=? 57).

Definition digit (c : char) (u : Decimal.uint) : Decimal.uint :=
  if c =? 48 then Decimal.D0 u else if c =? 49 then Decimal.D1 u
  else if c =? 50 then Decimal.D2 u else if c =? 51 then Decimal.D3 u
  else if c =? 52 then Decimal.D4 u else if c =? 53 then Decimal.D5 u
  else if c =? 54 then Decimal.D6 u else if c =? 55 then Decimal.D7 u
  else if c =? 56 then Decimal.D8 u else Decimal.D9 u.

Fixpoint scan_digits (s : str) : Decimal.uint * str :=
  match s with
  | c :: s' =>
      if is_digit c
      then let '(u, rest) := scan_digits s' in (digit c u, rest)
      else (Decimal.Nil, s)
  | [] => (Decimal.Nil, [])
  end.

(** The integer part of a number: a lone zero, or a run of digits that
    starts with a non-zero one. *)
Definition scan_uint (s : str) : option (Decimal.uint * str) :=
  match s with
  | c :: s' =>
      if c =? 48 then Some (Decimal.D0 Decimal.Nil, s')
      else if is_digit c then Some (scan_digits s)
      else None
  | [] => None
  end.

Definition starts_fraction (s : str) : bool :=
  match s with
  | c :: _ => (c =? 46) || (c =? 101) || (c =? 69)
  | [] => false
  end.

Definition scan_number (s : str) : option (Z * str) :=
  match s with
  | c :: s' =>
      if c =? 45 then
        '(u, rest) ← scan_uint s';
        if starts_fraction rest then None
        else Some (Z.of_int (Decimal.Neg u), rest)
      else
        '(u, rest) ← scan_uint s;
        if starts_fraction rest then None
        else Some (Z.of_int (Decimal.Pos u), rest)
  | [] => None
  end.

(** [scan_once] reads one value, [JSONObject] the members of an object and
    [JSONArray] the items of an array; [fuel] bounds the recursion, and
    [loads] supplies more than a text of that length can use. *)
Fixpoint scan_once (fuel : nat) (s : str) : option (json * str) :=
  match fuel with
  | O => None
  | S fuel' =>
      match s with
      | [] => None
      | c :: s' =>
          if c =? dquote then
            '(v, rest) ← scanstring s'; Some (JStr v, rest)
          else if c =? 123 then
            match skip_ws s' with
            | c1 :: rest1 =>
                if c1 =? 125 then Some (JDict [], rest1)
                else '(d, rest) ← JSONObject fuel' (c1 :: rest1);
                     Some (JDict d, rest)
            | [] => None
            end
          else if c =? 91 then
            match skip_ws s' with
            | c1 :: rest1 =>
                if c1 =? 93 then Some (JList [], rest1)
                else '(l, rest) ← JSONArray fuel' (c1 :: rest1);
                     Some (JList l, rest)
            | [] => None
            end
          else '(z, rest) ← scan_number s; Some (JInt z, rest)
      end
  end
with JSONObject (fuel : nat) (s : str) : option (list (str * json) * str) :=
  match fuel with
  | O => None
  | S fuel' =>
      match s with
      | q :: s1 =>
          if q =? dquote then
            '(key, s2) ← scanstring s1;
            match skip_ws s2 with
            | colon :: s3 =>
                if colon =? 58 then
                  '(value, s4) ← scan_once fuel' (skip_ws s3);
                  match skip_ws s4 with
                  | n :: s5 =>
                      if n =? 125 then Some ([(key, value)], s5)
                      else if n =? 44 then
                        '(more, rest) ← JSONObject fuel' (skip_ws s5);
                        Some ((key, value) :: more, rest)
                      else None
                  | [] => None
                  end
                else None
            | [] => None
            end
          else None
      | [] => None
      end
  end
with JSONArray (fuel : nat) (s : str) : option (list json * str) :=
  match fuel with
  | O => None
  | S fuel' =>
      '(value, s1) ← scan_once fuel' s;
      match skip_ws s1 with
      | n :: s2 =>
          if n =? 93 then Some ([value], s2)
          else if n =? 44 then
            '(more, rest) ← JSONArray fuel' (skip_ws s2);
            Some (value :: more, rest)
          else None
      | [] => None
      end
  end.

(** [json.loads]: one value, surrounded by optional white space. *)
Definition loads (s : str) : option json :=
  '(v, rest) ← scan_once (2 * length s + 2) (skip_ws s);
  match skip_ws rest with
  | [] => Some v
  | _ :: _ => None
  end.

(** ** A CSV reader

    [csv.reader] with the default dialect over the lines of the text, a
    line ending at LF, at CR LF, or at a CR that no LF follows.  The reader
    is fed the characters of each line and an end-of-line mark after each
    line.  The limit on the size of a field is left out. *)
Inductive event := Ch (c : char) | EOL.

Definition line_ends (c : char) (next : str) : bool :=
  (c =? 10)
  || ((c =? 13) && negb (match next with d :: _ => d =? 10 | [] => false end))
  || (match next with [] => true | _ :: _ => false end).

Fixpoint events (s : str) : list event :=
  match s with
  | [] => []
  | c :: s' =>
      Ch c :: (if line_ends c s' then EOL :: events s' else events s')
  end.

Inductive State :=
| START_RECORD | START_FIELD | IN_FIELD
| IN_QUOTED_FIELD | QUOTE_IN_QUOTED_FIELD | EAT_CRNL.

Record Reader := { state : State; field : str; fields : list str }.

Definition reset : Reader :=
  {| state := START_RECORD; field := []; fields := [] |}.

Definition save_field (r : Reader) (next : State) : Reader :=
  {| state := next; field := []; fields := fields r ++ [field r] |}.

Definition add_char (r : Reader) (c : char) (next : State) : Reader :=
  {| state := next; field := field r ++ [c]; fields := fields r |}.

Definition goto (r : Reader) (next : State) : Reader :=
  {| state := next; field := field r; fields := fields r |}.

Definition is_newline (c : char) : bool := (c =? 10) || (c =? 13).

Definition start_field (r : Reader) (ev : event) : option Reader :=
  match ev with
  | EOL => Some (save_field r START_RECORD)
  | Ch c =>
      if is_newline c then Some (save_field r EAT_CRNL)
      else if c =? dquote then Some (goto r IN_QUOTED_FIELD)
      else if c =? 44 then Some (save_field r START_FIELD)
      else Some (add_char r c IN_FIELD)
  end.

(** [parse_process_char]; [None] is a parse error. *)
Definition process_char (r : Reader) (ev : event) : option Reader :=
  match state r with
  | START_RECORD =>
      match ev with
      | EOL => Some r
      | Ch c => if is_newline c then Some (goto r EAT_CRNL)
                else start_field r ev
      end
  | START_FIELD => start_field r ev
  | IN_FIELD =>
      match ev with
      | EOL => Some (save_field r START_RECORD)
      | Ch c =>
          if is_newline c then Some (save_field r EAT_CRNL)
          else if c =? 44 then Some (save_field r START_FIELD)
          else Some (add_char r c IN_FIELD)
      end
  | IN_QUOTED_FIELD =>
      match ev with
      | EOL => Some r
      | Ch c =>
          if c =? dquote then Some (goto r QUOTE_IN_QUOTED_FIELD)
          else Some (add_char r c IN_QUOTED_FIELD)
      end
  | QUOTE_IN_QUOTED_FIELD =>
      match ev with
      | EOL => Some (save_field r START_RECORD)
      | Ch c =>
          if c =? dquote then Some (add_char r c IN_QUOTED_FIELD)
          else if c =? 44 then Some (save_field r START_FIELD)
          else if is_newline c then Some (save_field r EAT_CRNL)
          else Some (add_char r c IN_FIELD)
      end
  | EAT_CRNL =>
      match ev with
      | EOL => Some (goto r START_RECORD)
      | Ch c => if is_newline c then Some r else None
      end
  end.

(** The records the reader yields: one each time an end-of-line mark
    brings it back to the start of a record, and a last one if the input
    ends inside a quoted field. *)
Fixpoint read (r : Reader) (evs : list event) : option (list (list str)) :=
  match evs with
  | [] =>
      match state r, field r with
      | IN_QUOTED_FIELD, _ | _, _ :: _ => Some [fields (save_field r START_RECORD)]
      | _, [] => Some []
      end
  | ev :: evs' =>
      r' ← process_char r ev;
      match ev, state r' with
      | EOL, START_RECORD => cons (fields r') <$> read reset evs'
      | _, _ => read r' evs'
      end
  end.

Definition csv_reader (text : str) : option (list (list str)) :=
  read reset (events text).

End Readers.

(** * The vocabulary of the specifications *)

Module Spec.
Import Url Output Readers.

(** [free_of excl u]: no character of [u] is in the excluded set, so a
    repeat over the negated set can consume all of [u]. *)
Definition free_of (excl : list char) (u : str) : Prop :=
  Forall (λ x, in_set x excl = false) u.

(** [blocked excl v]: a repeat over the negated set cannot enter [v]. *)
Definition blocked (excl : list char) (v : str) : Prop :=
  match v with
  | [] => True
  | x :: _ => in_set x excl = true
  end.

(** [prefix_ok ic l s]: the literal text [l] matches at the start of [s]. *)
Fixpoint prefix_ok (ic : bool) (l s : str) : bool :=
  match l, s with
  | [], _ => true
  | c :: l', x :: s' => literal_ok ic c x && prefix_ok ic l' s'
  | _ :: _, [] => false
  end.

(** [occurs ic l s]: the literal text [l] matches somewhere in [s]. *)
Fixpoint occurs (ic : bool) (l s : str) : bool :=
  prefix_ok ic l s
  || match s with
     | [] => false
     | _ :: s' => occurs ic l s'
     end.

(** [ci l x]: the text [x] is the literal [l] up to letter case. *)
Definition ci (l x : str) : Prop :=
  length x = length l ∧ prefix_ok true l x = true.

(** The part of [APP_LINK_RE] after the [href] prefix. *)
Definition app_link_tail : list opcode :=
  [MARK 0; MAX_REPEAT_NOT_IN 1 [amp; dquote]; MARK 1;
   MAX_REPEAT_NOT_IN 0 [dquote];
   LITERAL dquote;
   MAX_REPEAT_NOT_IN 0 [gt_sign];
   LITERAL gt_sign;
   MAX_REPEAT_NOT_IN 0 [lt_sign]].

(** The marks left by the tail of the pattern entered at [s]. *)
Definition tail_marks (s after_id : str) : Marks :=
  {| mark_open := Some s; mark_close := Some after_id |}.

(** [labelled g before v]: the text [g] carries the attribute with value
    [v] after the prefix [before]. *)
Definition labelled (g before v : str) : Prop :=
  ∃ after, g = before ++ ARIA_PREFIX ++ v ++ dquote :: after
           ∧ v ≠ [] ∧ dquote ∉ v.

(** The identifier captured by a match of the anchor pattern. *)
Definition token (m : Match) : str := default [] (group m 1).

(** The matches that survive the duplicate check, given the identifiers
    already seen. *)
Fixpoint kept (seen : gset str) (ms : list Match) : list Match :=
  match ms with
  | [] => []
  | m :: ms' =>
      if decide (token m ∈ seen) then kept seen ms'
      else m :: kept ({[ token m ]} ∪ seen) ms'
  end.

Section Titles.

(** The text that a returning call of [unescape] computes. *)
Variable value : str → str.

(** The title computed from the text of a matched anchor. *)
Definition title_of (g : str) : str :=
  match search ARIA_LABEL_RE g with
  | Some label_match => strip (value (default [] (group label_match 1)))
  | None => []
  end.

Definition whole (m : Match) : str := span (m_start m) (m_end m).

Definition entry_of (n : nat) (m : Match) : AppEntry :=
  {| rank := Z.of_nat n + 1; app_id := token m; title := title_of (whole m) |}.

End Titles.

(** What [unescape] returned, for a call that did return. *)
Definition returned (unescape : str → option str) (v : str) : str :=
  default [] (unescape v).

(** The attribute value that the loop passes to [unescape] for a matched
    anchor, when the anchor has one. *)
Definition label_value (m : Match) : option str :=
  label_match ← search ARIA_LABEL_RE (whole m); group label_match 1.

(** The title that the loop computes for a matched anchor, [None] when
    [unescape] raises on its label. *)
Definition label_title (unescape : str → option str) (m : Match)
    : option str :=
  match label_value m with
  | Some v => strip <$> unescape v
  | None => Some []
  end.

(** [labels_ok unescape html]: [unescape] returns on the label of every
    anchor that [extract_apps] keeps, that is, of the first matching anchor
    of each identifier. *)
Definition label_ok (unescape : str → option str) (m : Match) : Prop :=
  is_Some (label_title unescape m).

Definition labels_ok (unescape : str → option str) (html : str) : Prop :=
  Forall (label_ok unescape) (kept ∅ (finditer APP_LINK_RE html)).







(** A small page used to exercise the results below: two links to the same
    application, the first one labelled, then a link to another one. *)
Definition link (id after text : str) : str :=
  U "<a class=" ++ [dquote] ++ U "card" ++ [dquote] ++ U " "
  ++ HREF_PREFIX ++ id ++ [dquote] ++ after ++ [gt_sign] ++ text ++ U "</a>".

Definition label (v : str) : str :=
  U " " ++ ARIA_PREFIX ++ v ++ [dquote].

Definition sample_page : str :=
  U "<html><body>"
  ++ link (U "com.app.one&hl=ko") (label (U " One Game ")) (U "One")
  ++ link (U "com.app.one") [] (U "again")
  ++ link (U "com.app.two") [] (U "Two")
  ++ U "</body></html>".




(** A page with one anchor whose label is a decimal character reference
    of [n] digits. *)
Definition charref (n : nat) : str := U "&#" ++ repeat 49 n ++ U ";".

Definition charref_page (n : nat) : str :=
  link (U "com.app.one") (label (charref n)) (U "One").

Definition three_entries : list AppEntry :=
  [ {| rank := 1; app_id := U "a"; title := [] |};
    {| rank := 2; app_id := U "b"; title := [] |};
    {| rank := 3; app_id := U "c"; title := [] |} ].

(** The strings that [utf8_encode] accepts. *)
Definition encodable (s : str) : Prop :=
  Forall (λ c, c < 1114112 ∧ ¬ (55296 ≤ c ≤ 57343)) s.

(** The characters that can appear in a quoted value. *)
Definition query_safe (c : char) : bool :=
  always_safe c || (c =? 43) || (c =? 37).

Definition no_digit (rest : str) : Prop :=
  match rest with
  | c :: _ => is_digit c = false
  | [] => True
  end.

(** What may follow a number written by the formatters. *)
Definition number_ends (rest : str) : Prop :=
  no_digit rest ∧ starts_fraction rest = false.

Definition scalar (v : json) : Prop :=
  match v with
  | JInt _ | JStr _ => True
  | _ => False
  end.

(** The first character of an encoded scalar. *)
Definition scalar_start (c : char) : Prop :=
  c = dquote ∨ c = 45 ∨ is_digit c = true.

(** One member of an object, as the encoder writes it. *)
Definition member (lvl : nat) (kv : str * json) : str :=
  encode_basestring (fst kv) ++ [58; 32] ++ iterencode lvl (snd kv).

(** Where the reader stands before a field and after it. *)
Definition at_start (r : Reader) : Prop :=
  (state r = START_RECORD ∨ state r = START_FIELD) ∧ field r = [].

Definition after_field (r0 r : Reader) (f : str) : Prop :=
  field r = f ∧ fields r = fields r0
  ∧ (state r = IN_FIELD ∨ state r = QUOTE_IN_QUOTED_FIELD
     ∨ (f = [] ∧ state r = state r0)).

(** The row that [output_csv] writes for an entry, as a reader sees it. *)
Definition entry_row (entry : AppEntry) : list str :=
  [int_str (rank entry); app_id entry; title entry].

Definition entry_tuple (entry : AppEntry) : Z * str * str :=
  (rank entry, app_id entry, title entry).

(** [d[key]] on the dictionary built from the members of an object: of two
    members with the same key the later one counts. *)
Fixpoint dict_get (key : str) (ms : list (str * json)) : option json :=
  match ms with
  | [] => None
  | (k, v) :: rest =>
      match dict_get key rest with
      | Some v' => Some v'
      | None => if decide (k = key) then Some v else None
      end
  end.

Definition json_tuple (v : json) : option (Z * str * str) :=
  match v with
  | JDict ms =>
      match dict_get (U "rank") ms, dict_get (U "app_id") ms,
            dict_get (U "title") ms with
      | Some (JInt z), Some (JStr a), Some (JStr t) => Some (z, a, t)
      | _, _, _ => None
      end
  | _ => None
  end.

Definition json_tuples (v : json) : option (list (Z * str * str)) :=
  match v with
  | JList items => mapM json_tuple items
  | _ => None
  end.

(** A CSV row holds text; its first field is read as an integer. *)
Definition row_tuple (row : list str) : option (Z * str * str) :=
  match row with
  | [r; a; t] =>
      match scan_number r with
      | Some (z, []) => Some (z, a, t)
      | _ => None
      end
  | _ => None
  end.

Definition limit_zero : Namespace :=
  {| hl := U "ko"; gl := U "KR"; category := None; limit := 0;
     json_flag := false |}.

(** Values made of unreserved characters only. *)
Definition unreserved (s : str) : Prop :=
  Forall (λ c, always_safe c = true) s.

(** The category as [build_url] sees it: an empty one counts as absent. *)
Definition effective (category : option str) : option str :=
  match category with
  | Some (x :: c) => Some (x :: c)
  | _ => None
  end.

(** Left inverses of the encoders, used to show that they lose nothing:
    UTF-8 bytes back to code points, percent escapes back to bytes. *)
Fixpoint utf8_decode (bs : list N) : str :=
  match bs with
  | [] => []
  | b0 :: r0 =>
      if b0 <? 128 then b0 :: utf8_decode r0
      else if b0 <? 224 then
        match r0 with
        | b1 :: r1 => (b0 - 192) * 64 + (b1 - 128) :: utf8_decode r1
        | _ => []
        end
      else if b0 <? 240 then
        match r0 with
        | b1 :: b2 :: r2 =>
            ((b0 - 224) * 64 + (b1 - 128)) * 64 + (b2 - 128)
            :: utf8_decode r2
        | _ => []
        end
      else
        match r0 with
        | b1 :: b2 :: b3 :: r3 =>
            (((b0 - 240) * 64 + (b1 - 128)) * 64 + (b2 - 128)) * 64
            + (b3 - 128) :: utf8_decode r3
        | _ => []
        end
  end.

Fixpoint unquote_bytes (s : str) : list N :=
  match s with
  | [] => []
  | c :: s' =>
      if c =? 37 then
        match s' with
        | a :: b :: s'' =>
            default 0 (hex_val a) * 16 + default 0 (hex_val b)
            :: unquote_bytes s''
        | _ => []
        end
      else c :: unquote_bytes s'
  end.

Definition unquote_plus (s : str) : str :=
  utf8_decode (unquote_bytes (replace_char 43 32 s)).

(** Text that the JSON encoder writes as it is: no control character, no
    double quote, no backslash. *)
Definition plain (s : str) : Prop :=
  Forall (λ c, 32 ≤ c ∧ c ≠ dquote ∧ c ≠ 92) s.

(** Text that the CSV writer writes as it is. *)
Definition bare (s : str) : Prop :=
  Forall (λ c, needs_quotes c = false) s.

(** The object of an entry in the JSON output, its strings written as
    they are. *)
Definition object_text (e : AppEntry) : str :=
  U "{" ++ [10] ++ U "    " ++ [dquote] ++ U "rank" ++ [dquote] ++ U ": "
  ++ int_str (rank e) ++ U "," ++ [10]
  ++ U "    " ++ [dquote] ++ U "app_id" ++ [dquote] ++ U ": "
  ++ [dquote] ++ app_id e ++ [dquote] ++ U "," ++ [10]
  ++ U "    " ++ [dquote] ++ U "title" ++ [dquote] ++ U ": "
  ++ [dquote] ++ title e ++ [dquote] ++ [10] ++ U "  }".

(** The row of an entry in the CSV output, its fields written as they
    are. *)
Definition row_text (e : AppEntry) : str :=
  int_str (rank e) ++ U "," ++ app_id e ++ U "," ++ title e ++ [13; 10].


(** Reading the standard output of a run back into triples. *)
Definition read_back (as_json : bool) (out : str)
    : option (list (Z * str * str)) :=
  if as_json then loads out ≫= json_tuples
  else csv_reader out ≫= λ rows, mapM row_tuple (tail rows).

(** A run used to exercise the results about [main]: the first entry of
    the sample page, as CSV. *)
Definition sample_args : Namespace :=
  {| hl := U "ko"; gl := U "KR"; category := None; limit := 1;
     json_flag := false |}.

Definition sample_run : Run :=
  {| stdout := U "rank,app_id,title" ++ [13; 10]
               ++ U "1,com.app.one,One Game" ++ [13; 10];
     stderr := []; status := 0 |}.


(** The entries of the sample page. *)
Definition sample_entries : list AppEntry :=
  [ {| rank := 1; app_id := U "com.app.one"; title := U "One Game" |};
    {| rank := 2; app_id := U "com.app.two"; title := [] |} ].

End Spec.

(** * Properties of the matcher *)

Module SreFacts.
Import Spec.

Lemma in_set_true x set : in_set x set = true ↔ x ∈ set.
Proof.
  unfold in_set. induction set as [|y set IH]; simpl.
  - split; [done|]. by intros ?%elem_of_nil.
  - rewrite elem_of_cons, orb_true_iff, IH, N.eqb_eq. done.
Qed.

Lemma in_set_false x set : in_set x set = false ↔ x ∉ set.
Proof. rewrite <- in_set_true. by destruct (in_set x set). Qed.

Lemma free_of_nil excl : free_of excl [].
Proof. constructor. Qed.

Lemma free_of_app excl u v :
  free_of excl (u ++ v) ↔ free_of excl u ∧ free_of excl v.
Proof. apply Forall_app. Qed.

Lemma free_of_1 a u : free_of [a] u ↔ a ∉ u.
Proof.
  unfold free_of. rewrite Forall_forall. split.
  - intros H Ha. specialize (H a Ha). apply in_set_false in H. set_solver.
  - intros H x Hx. apply in_set_false. intros Hin.
    apply list_elem_of_singleton in Hin. by subst.
Qed.

Lemma free_of_2 a b u : free_of [a; b] u ↔ (a ∉ u) ∧ (b ∉ u).
Proof.
  unfold free_of. rewrite Forall_forall. split.
  - intros H. split; intros Hx; specialize (H _ Hx);
      apply in_set_false in H; set_solver.
  - intros [Ha Hb] x Hx. apply in_set_false. intros Hin.
    apply elem_of_cons in Hin as [->|Hin]; [done|].
    apply list_elem_of_singleton in Hin. by subst.
Qed.

Section Repeat.

Context {R : Type} (excl : list char) (k : str → option R).

(** Whatever a repeat returns comes from the rest of the pattern, entered
    after at least [lo] characters outside the excluded set. *)
Lemma max_repeat_Some lo s r :
  max_repeat excl k lo s = Some r →
  ∃ u v, s = u ++ v ∧ (lo ≤ length u)%nat ∧ free_of excl u ∧ k v = Some r.
Proof.
  revert lo. induction s as [|x s IH]; intros lo; simpl.
  - destruct lo; [|done]. intros Hk. exists [], []. 
    split_and!; [done|simpl; lia|constructor|done].
  - destruct (in_set x excl) eqn:Hx.
    + destruct lo; [|done]. intros Hk. exists [], (x :: s).
      split_and!; [done|simpl; lia|constructor|done].
    + destruct (max_repeat excl k (pred lo) s) as [r'|] eqn:Hrec.
      * intros [= <-]. destruct (IH _ Hrec) as (u & v & -> & Hlo & Hu & Hk).
        exists (x :: u), v. split_and!; [done|simpl; lia|by constructor|done].
      * destruct lo; [|done]. intros Hk. exists [], (x :: s).
        split_and!; [done|simpl; lia|constructor|done].
Qed.

(** With no lower bound left and nothing after [u2] acceptable to the rest
    of the pattern, the repeat over [u2 ++ v] hands the whole of it on. *)
Lemma max_repeat_give_back u2 v :
  free_of excl u2 → blocked excl v →
  (∀ j, (0 < j ≤ length u2)%nat → k (drop j u2 ++ v) = None) →
  max_repeat excl k 0 (u2 ++ v) = k (u2 ++ v).
Proof.
  induction u2 as [|x u2 IH]; intros Hfree Hblk Hfail; simpl.
  - destruct v as [|y v]; [done|]. simpl in *. by rewrite Hblk.
  - inversion_clear Hfree as [|?? Hx Hu2]. rewrite Hx.
    rewrite IH; [|done|done|].
    + specialize (Hfail 1%nat). simpl in Hfail. rewrite drop_0 in Hfail.
      rewrite Hfail; [done|lia].
    + intros j Hj. apply (Hfail (S j)). simpl. lia.
Qed.

(** Backtracking: the repeat consumes [u1 ++ u2], the rest of the pattern
    rejects every split point inside [u2], and accepts at the end of [u1]. *)
Lemma max_repeat_backtrack lo u1 u2 v r :
  free_of excl u1 → free_of excl u2 → blocked excl v →
  (lo ≤ length u1)%nat →
  (∀ j, (0 < j ≤ length u2)%nat → k (drop j u2 ++ v) = None) →
  k (u2 ++ v) = Some r →
  max_repeat excl k lo (u1 ++ u2 ++ v) = Some r.
Proof.
  revert lo. induction u1 as [|x u1 IH]; intros lo Hu1 Hu2 Hblk Hlo Hfail Hk.
  - simpl in *. assert (lo = 0%nat) as -> by lia.
    by rewrite max_repeat_give_back.
  - inversion_clear Hu1 as [|?? Hx Hu1']. simpl. rewrite Hx.
    rewrite (IH (pred lo)); [done..| |done|done]. simpl in Hlo. lia.
Qed.

(** The greedy case: the rest of the pattern accepts right after the
    longest run. *)
Lemma max_repeat_longest lo u v r :
  free_of excl u → blocked excl v → (lo ≤ length u)%nat →
  k v = Some r →
  max_repeat excl k lo (u ++ v) = Some r.
Proof.
  intros Hu Hblk Hlo Hk.
  apply (max_repeat_backtrack lo u [] v r); try done.
  - constructor.
  - simpl. intros j Hj. lia.
Qed.

End Repeat.

Lemma run_literals ic l p s mk :
  run ic (literals l ++ p) s mk
  = if prefix_ok ic l s then run ic p (drop (length l) s) mk else None.
Proof.
  revert s. induction l as [|c l IH]; intros s; simpl; [done|].
  destruct s as [|x s]; [done|]. simpl.
  destruct (literal_ok ic c x); simpl; [apply IH|done].
Qed.

Lemma prefix_ok_split ic l s :
  prefix_ok ic l s = true →
  s = take (length l) s ++ drop (length l) s
  ∧ length (take (length l) s) = length l
  ∧ prefix_ok ic l (take (length l) s) = true.
Proof.
  revert s. induction l as [|c l IH]; intros s; simpl.
  - intros _. by rewrite drop_0.
  - destruct s as [|x s]; [done|]. intros [Hx Hl]%andb_true_iff.
    destruct (IH _ Hl) as (Heq & Hlen & Hp). simpl.
    rewrite Hx, Hp, Hlen. split_and!; [by rewrite <- Heq|done|done].
Qed.

Lemma prefix_ok_app ic l s1 s2 :
  length s1 = length l →
  prefix_ok ic l (s1 ++ s2) = prefix_ok ic l s1.
Proof.
  revert s1. induction l as [|c l IH]; intros [|x s1]; simpl; try done.
  intros [= Hlen]. by rewrite IH.
Qed.

Lemma occurs_false_cons ic l x s :
  occurs ic l (x :: s) = false →
  prefix_ok ic l (x :: s) = false ∧ occurs ic l s = false.
Proof. cbn [occurs]. by intros ?%orb_false_iff. Qed.

Lemma occurs_false_drop ic l s j :
  occurs ic l s = false → prefix_ok ic l (drop j s) = false.
Proof.
  revert s. induction j as [|j IH]; intros s H.
  - rewrite drop_0. destruct s; simpl in H; by apply orb_false_iff in H as [? _].
  - destruct s as [|x s]; simpl.
    + destruct l; simpl in *; done.
    + apply IH. by apply occurs_false_cons in H as [_ ?].
Qed.

(** What the matcher returns is a position further on in the subject. *)
Lemma run_suffix ic p s mk mk' rest :
  run ic p s mk = Some (mk', rest) → ∃ u, s = u ++ rest.
Proof.
  revert s mk. induction p as [|[c|lo excl|i] p IH]; intros s mk; simpl.
  - intros [= _ <-]. by exists [].
  - destruct s as [|x s]; [done|]. destruct (literal_ok ic c x); [|done].
    intros [u ->]%IH. by exists (x :: u).
  - intros (u & v & -> & _ & _ & [w ->]%IH)%max_repeat_Some.
    exists (u ++ w). by rewrite <- app_assoc.
  - apply IH.
Qed.

Lemma span_app (u v : str) : span (u ++ v) v = u.
Proof.
  unfold span. rewrite length_app.
  replace (length u + length v - length v)%nat with (length u) by lia.
  by rewrite take_app_length.
Qed.

Lemma match_at_suffix p s m :
  match_at p s = Some m →
  m_start m = s ∧ ∃ u, s = u ++ m_end m ∧ group m 0 = Some u.
Proof.
  unfold match_at.
  destruct (run _ _ s no_marks) as [[mk rest]|] eqn:Hrun; [|done].
  intros [= <-]. simpl. split; [done|].
  destruct (run_suffix _ _ _ _ _ _ Hrun) as [u ->].
  exists u. by rewrite span_app.
Qed.

Lemma search_suffix p s m :
  search p s = Some m →
  ∃ skipped u, s = skipped ++ u ++ m_end m
               ∧ m_start m = u ++ m_end m
               ∧ match_at p (m_start m) = Some m.
Proof.
  induction s as [|x s IH]; simpl.
  - destruct (match_at p []) as [m'|] eqn:Hm; [|done]. intros [= ->].
    destruct (match_at_suffix _ _ _ Hm) as (Hst & u & Hu & _).
    exists [], u. rewrite Hst. by split_and!.
  - destruct (match_at p (x :: s)) as [m'|] eqn:Hm.
    + intros [= ->].
      destruct (match_at_suffix _ _ _ Hm) as (Hst & u & Hu & _).
      exists [], u. rewrite Hst. by split_and!.
    + intros (sk & u & -> & Hst & Hm')%IH. by exists (x :: sk), u.
Qed.

(** The fuel of [finditer] never runs out: the scan obeys its recursion
    equation on every subject. *)
Lemma finditer_from_enough p s fuel1 fuel2 :
  (length s < fuel1)%nat → (length s < fuel2)%nat →
  finditer_from fuel1 p s = finditer_from fuel2 p s.
Proof.
  revert s fuel2.
  induction fuel1 as [|fuel1 IH]; intros s [|fuel2] H1 H2; try lia.
  simpl. destruct (search p s) as [m|] eqn:Hs; [|done]. f_equal.
  destruct (search_suffix _ _ _ Hs) as (sk & u & -> & Hst & _).
  rewrite !length_app in H1, H2.
  destruct (length (m_end m) <? length (m_start m))%nat eqn:Hlt.
  - apply Nat.ltb_lt in Hlt. rewrite Hst, length_app in Hlt.
    apply IH; lia.
  - destruct (m_end m) as [|y rest]; [done|]. simpl in *. apply IH; lia.
Qed.

Lemma finditer_unfold p s :
  finditer p s
  = match search p s with
    | None => []
    | Some m =>
        m :: (if (length (m_end m) <? length (m_start m))%nat
              then finditer p (m_end m)
              else match m_end m with
                   | [] => []
                   | _ :: s' => finditer p s'
                   end)
    end.
Proof.
  unfold finditer at 1. cbn [finditer_from].
  destruct (search p s) as [m|] eqn:Hs; [|done]. f_equal.
  destruct (search_suffix _ _ _ Hs) as (sk & u & Hs' & Hst & _).
  assert (length s = length sk + length u + length (m_end m))%nat as Hlen.
  { rewrite Hs' at 1. rewrite !length_app. lia. }
  destruct (length (m_end m) <? length (m_start m))%nat eqn:Hlt.
  - apply Nat.ltb_lt in Hlt. rewrite Hst, length_app in Hlt.
    apply finditer_from_enough; lia.
  - destruct (m_end m) as [|y rest]; [done|].
    apply finditer_from_enough; simpl in *; lia.
Qed.

(** [search] returns the leftmost match. *)
Lemma search_Some p s m :
  search p s = Some m →
  ∃ skipped, s = skipped ++ m_start m
             ∧ match_at p (m_start m) = Some m
             ∧ ∀ j, (j < length skipped)%nat → match_at p (drop j s) = None.
Proof.
  induction s as [|x s IH]; simpl.
  - destruct (match_at p []) as [m'|] eqn:Hm; [|done]. intros [= ->].
    destruct (match_at_suffix _ _ _ Hm) as (Hst & _).
    exists []. rewrite Hst. split_and!; [done|done|simpl; lia].
  - destruct (match_at p (x :: s)) as [m'|] eqn:Hm.
    + intros [= ->]. destruct (match_at_suffix _ _ _ Hm) as (Hst & _).
      exists []. rewrite Hst. split_and!; [done|done|simpl; lia].
    + intros (sk & -> & Hm' & Hleft)%IH. exists (x :: sk).
      split_and!; [done|done|].
      intros [|j] Hj; [done|]. simpl. apply Hleft. simpl in Hj. lia.
Qed.

Lemma search_None p s :
  search p s = None → ∀ j, match_at p (drop j s) = None.
Proof.
  induction s as [|x s IH]; simpl.
  - destruct (match_at p []) eqn:Hm; [done|]. intros _ j. by rewrite drop_nil.
  - destruct (match_at p (x :: s)) eqn:Hm; [done|].
    intros Hs [|j]; [done|]. simpl. by apply IH.
Qed.



End SreFacts.

(** * The two patterns *)

Module Patterns.
Import Spec.
Import SreFacts.

Lemma app_link_code :
  code APP_LINK_RE
  = literals (U "<a") ++ MAX_REPEAT_NOT_IN 1 [gt_sign]
      :: literals HREF_PREFIX ++ app_link_tail.
Proof. reflexivity. Qed.

Lemma literal_dquote x : literal_ok true dquote x = true → x = dquote.
Proof.
  unfold literal_ok, folds_to. cbn.
  destruct (N.eqb_spec x dquote); [done|]. by rewrite !orb_false_r.
Qed.

Lemma literal_gt x : literal_ok true gt_sign x = true → x = gt_sign.
Proof.
  unfold literal_ok, folds_to. cbn.
  destruct (N.eqb_spec x gt_sign); [done|]. by rewrite !orb_false_r.
Qed.

Lemma blocked_cons excl x v : x ∈ excl → blocked excl (x :: v).
Proof. intros. by apply in_set_true. Qed.

Lemma app_link_tail_inv s mk mk' rest :
  run true app_link_tail s mk = Some (mk', rest) →
  ∃ tok q c t,
    s = tok ++ q ++ dquote :: c ++ gt_sign :: t ++ rest
    ∧ tok ≠ [] ∧ free_of [amp; dquote] tok ∧ free_of [dquote] q
    ∧ free_of [gt_sign] c ∧ free_of [lt_sign] t
    ∧ mk' = tail_marks s (q ++ dquote :: c ++ gt_sign :: t ++ rest).
Proof.
  unfold app_link_tail. cbn [run].
  intros (tok & s1 & -> & Htok & Hfree1 & H)%max_repeat_Some.
  cbn [run] in H.
  apply max_repeat_Some in H as (q & s2 & -> & _ & Hfree2 & H).
  destruct s2 as [|x s2]; [done|]. cbn [run] in H.
  destruct (literal_ok true dquote x) eqn:Hx; [|done].
  apply literal_dquote in Hx as ->.
  apply max_repeat_Some in H as (c & s3 & -> & _ & Hfree3 & H).
  destruct s3 as [|y s3]; [done|]. cbn [run] in H.
  destruct (literal_ok true gt_sign y) eqn:Hy; [|done].
  apply literal_gt in Hy as ->.
  apply max_repeat_Some in H as (t & s4 & -> & _ & Hfree4 & H).
  cbn [run] in H. injection H as <- <-.
  exists tok, q, c, t. split_and!; try done.
  intros ->. simpl in Htok. lia.
Qed.

Lemma app_link_tail_run tok q c t rest mk :
  tok ≠ [] → free_of [amp; dquote] tok →
  free_of [dquote] q → blocked [amp; dquote] (q ++ [dquote]) →
  free_of [gt_sign] c → free_of [lt_sign] t → blocked [lt_sign] rest →
  run true app_link_tail
      (tok ++ q ++ dquote :: c ++ gt_sign :: t ++ rest) mk
  = Some (tail_marks (tok ++ q ++ dquote :: c ++ gt_sign :: t ++ rest)
                     (q ++ dquote :: c ++ gt_sign :: t ++ rest), rest).
Proof.
  intros Htok Hfree1 Hfree2 Hblk Hfree3 Hfree4 Hrest.
  unfold app_link_tail. cbn [run].
  apply max_repeat_longest; [done| |destruct tok; [done|simpl; lia]|].
  { destruct q; simpl in *; done. }
  cbn [run]. apply max_repeat_longest; [done| |simpl; lia|].
  { by apply blocked_cons, list_elem_of_singleton. }
  cbn [run]. replace (literal_ok true dquote dquote) with true by done.
  apply max_repeat_longest; [done| |simpl; lia|].
  { by apply blocked_cons, list_elem_of_singleton. }
  cbn [run]. replace (literal_ok true gt_sign gt_sign) with true by done.
  by apply max_repeat_longest; [done|done|simpl; lia|].
Qed.

Lemma split_at_blocked excl (s : str) :
  ∃ u v, s = u ++ v ∧ free_of excl u ∧ blocked excl v.
Proof.
  induction s as [|x s (u & v & -> & Hu & Hv)].
  - exists [], []. by split_and!; [|constructor|].
  - destruct (in_set x excl) eqn:Hx.
    + exists [], (x :: u ++ v). by split_and!; [|constructor|].
    + exists (x :: u), v. by split_and!; [|constructor|].
Qed.

Lemma ci_prefix l x s : ci l x → prefix_ok true l (x ++ s) = true.
Proof. intros [Hlen Hp]. by rewrite prefix_ok_app. Qed.









(** Soundness: every match of [APP_LINK_RE] has the anchor's shape. *)
Lemma app_link_match_inv s m :
  match_at APP_LINK_RE s = Some m →
  ∃ o b h tok q c t,
    s = o ++ b ++ h ++ tok ++ q ++ dquote :: c ++ gt_sign :: t ++ m_end m
    ∧ ci (U "<a") o ∧ b ≠ [] ∧ free_of [gt_sign] b ∧ ci HREF_PREFIX h
    ∧ tok ≠ [] ∧ free_of [amp; dquote] tok ∧ free_of [dquote] q
    ∧ free_of [gt_sign] c ∧ free_of [lt_sign] t
    ∧ m_start m = s
    ∧ m_marks m
      = tail_marks (tok ++ q ++ dquote :: c ++ gt_sign :: t ++ m_end m)
                   (q ++ dquote :: c ++ gt_sign :: t ++ m_end m).
Proof.
  unfold match_at. rewrite app_link_code.
  change (ignorecase APP_LINK_RE) with true.
  rewrite run_literals.
  destruct (prefix_ok true (U "<a") s) eqn:Ho; [|by cbn].
  destruct (prefix_ok_split _ _ _ Ho) as (Hs & Hlen & Ho').
  cbn [run].
  destruct (max_repeat _ _ _ _) as [[mk rest]|] eqn:Hrun; [|done].
  intros [= <-]. cbn [m_start m_end m_marks].
  apply max_repeat_Some in Hrun as (b & s1 & Hs1 & Hb & Hfree & Hrun).
  rewrite run_literals in Hrun.
  destruct (prefix_ok true HREF_PREFIX s1) eqn:Hh; [|done].
  destruct (prefix_ok_split _ _ _ Hh) as (Hs1' & Hlen' & Hh').
  apply app_link_tail_inv in Hrun
    as (tok & q & c & t & Hs2 & Htok & Hf1 & Hf2 & Hf3 & Hf4 & ->).
  exists (take (length (U "<a")) s), b, (take (length HREF_PREFIX) s1),
    tok, q, c, t.
  rewrite <- Hs2. split_and!; try done.
  - rewrite Hs at 1. f_equal. rewrite Hs1. f_equal. done.
  - intros ->. simpl in Hb. lia.
Qed.


(** ** The label pattern *)

Lemma prefix_ok_exact l s : prefix_ok false l (l ++ s) = true.
Proof. induction l as [|c l IH]; simpl; [done|]. by rewrite N.eqb_refl. Qed.

Lemma prefix_ok_exact_inv l s :
  prefix_ok false l s = true → s = l ++ drop (length l) s.
Proof.
  revert s. induction l as [|c l IH]; intros [|x s]; simpl; try done.
  intros [->%N.eqb_eq Hl]%andb_true_iff. f_equal. by apply IH.
Qed.

Lemma aria_match_inv s m :
  match_at ARIA_LABEL_RE s = Some m →
  ∃ v, labelled s [] v ∧ group m 1 = Some v.
Proof.
  unfold match_at. change (code ARIA_LABEL_RE) with
    (literals ARIA_PREFIX
     ++ [MARK 0; MAX_REPEAT_NOT_IN 1 [dquote]; MARK 1; LITERAL dquote]).
  change (ignorecase ARIA_LABEL_RE) with false.
  rewrite run_literals.
  destruct (prefix_ok false ARIA_PREFIX s) eqn:Hp; [|by cbn].
  apply prefix_ok_exact_inv in Hp. cbn [run].
  remember (drop (length ARIA_PREFIX) s) as s0 eqn:Hs0. clear Hs0. subst s.
  destruct (max_repeat _ _ _ _) as [[mk rest]|] eqn:Hrun; [|done].
  intros [= <-].
  apply max_repeat_Some in Hrun as (v & s1 & -> & Hv & Hfree & Hrun).
  cbn [run] in Hrun. destruct s1 as [|x s1]; [done|].
  cbn [literal_ok] in Hrun. destruct (N.eqb_spec x dquote) as [->|]; [|done].
  injection Hrun as <- <-.
  exists v. split.
  - exists s1. split_and!; [done| |].
    + intros ->. simpl in Hv. lia.
    + by apply free_of_1.
  - cbn.
    by rewrite span_app.
Qed.

Lemma aria_match_run v after :
  v ≠ [] → dquote ∉ v →
  ∃ m, match_at ARIA_LABEL_RE (ARIA_PREFIX ++ v ++ dquote :: after) = Some m.
Proof.
  intros Hv Hfree. unfold match_at.
  change (code ARIA_LABEL_RE) with
    (literals ARIA_PREFIX
     ++ [MARK 0; MAX_REPEAT_NOT_IN 1 [dquote]; MARK 1; LITERAL dquote]).
  change (ignorecase ARIA_LABEL_RE) with false.
  rewrite run_literals, prefix_ok_exact, drop_app_length. cbn [run].
  rewrite (max_repeat_longest _ _ 1 v (dquote :: after)
             (set_mark 1 (dquote :: after)
                (set_mark 0 (v ++ dquote :: after) no_marks), after));
    [by eexists| | | |].
  - by apply free_of_1.
  - by apply blocked_cons, list_elem_of_singleton.
  - destruct v; [done|simpl; lia].
  - cbn [run literal_ok]. by rewrite N.eqb_refl.
Qed.

(** [ARIA_LABEL_RE.search] finds the leftmost labelled position, and finds
    one whenever there is one. *)
Lemma aria_search_Some g lm :
  search ARIA_LABEL_RE g = Some lm →
  ∃ before v, labelled g before v ∧ group lm 1 = Some v
    ∧ ∀ before' v', labelled g before' v' →
                    (length before ≤ length before')%nat.
Proof.
  intros (sk & Hg & Hm & Hleft)%search_Some.
  apply aria_match_inv in Hm as (v & (after & Hst & Hv & Hfree) & Hgrp).
  exists sk, v. split_and!; [|done|].
  - exists after. by rewrite Hg, Hst.
  - intros before' v' (after' & Hg' & Hv' & Hfree').
    destruct (decide (length sk ≤ length before')%nat); [done|].
    specialize (Hleft (length before')). rewrite Hg' in Hleft at 1.
    rewrite drop_app_length in Hleft.
    destruct (aria_match_run v' after' Hv' Hfree') as [m' Hm'].
    rewrite Hleft in Hm' by lia. done.
Qed.

Lemma aria_search_None g :
  search ARIA_LABEL_RE g = None → ∀ before v, ¬ labelled g before v.
Proof.
  intros Hnone before v (after & Hg & Hv & Hfree).
  pose proof (search_None _ _ Hnone (length before)) as H.
  rewrite Hg, drop_app_length in H.
  destruct (aria_match_run v after Hv Hfree) as [m' Hm']. by rewrite H in Hm'.
Qed.

End Patterns.

(** * Stripping *)

Module StripFacts.
Import Spec.

Lemma lstrip_head s :
  match lstrip s with
  | c :: _ => isspace c = false
  | [] => True
  end.
Proof.
  induction s as [|c s IH]; [done|]. cbn [lstrip].
  by destruct (isspace c) eqn:Hc.
Qed.

Lemma lstrip_split s :
  ∃ ws, s = ws ++ lstrip s ∧ Forall (λ c, isspace c = true) ws.
Proof.
  induction s as [|c s (ws & Heq & Hws)]; [by exists []|].
  cbn [lstrip]. destruct (isspace c) eqn:Hc.
  - exists (c :: ws). split; [by rewrite Heq at 1|by constructor].
  - by exists [].
Qed.

(** [strip] removes a run of white space at each end, and what is left
    neither starts nor ends with white space. *)
Lemma strip_spec s :
  ∃ l r, s = l ++ strip s ++ r
         ∧ Forall (λ c, isspace c = true) l
         ∧ Forall (λ c, isspace c = true) r
         ∧ match strip s with
           | c :: _ => isspace c = false
           | [] => True
           end
         ∧ match rev (strip s) with
           | c :: _ => isspace c = false
           | [] => True
           end.
Proof.
  destruct (lstrip_split s) as (l & Hl & Hlws).
  destruct (lstrip_split (rev (lstrip s))) as (r & Hr & Hrws).
  assert (lstrip s = strip s ++ rev r) as Hmid.
  { unfold strip. rewrite <- rev_app_distr, <- Hr. by rewrite rev_involutive. }
  exists l, (rev r). split_and!.
  - rewrite Hl at 1. by rewrite Hmid.
  - done.
  - apply Forall_forall. intros c Hc%list_elem_of_In%in_rev%list_elem_of_In.
    rewrite Forall_forall in Hrws. by apply Hrws.
  - pose proof (lstrip_head s) as Hh. rewrite Hmid in Hh.
    by destruct (strip s).
  - unfold strip. rewrite rev_involutive. apply lstrip_head.
Qed.

End StripFacts.

(** * The extraction loop *)

Module Loop.
Import Spec.
Import SreFacts Patterns.

(** Every match produced by [finditer] is a match of the pattern at the
    position where it starts. *)
Lemma finditer_from_matches fuel p s :
  Forall (λ m, match_at p (m_start m) = Some m) (finditer_from fuel p s).
Proof.
  revert s. induction fuel as [|fuel IH]; intros s; simpl; [constructor|].
  destruct (search p s) as [m|] eqn:Hs; [|constructor].
  apply search_Some in Hs as (sk & _ & Hm & _). constructor; [done|].
  destruct (_ <? _)%nat; [apply IH|].
  destruct (m_end m); [constructor|apply IH].
Qed.

Lemma finditer_matches p s :
  Forall (λ m, match_at p (m_start m) = Some m) (finditer p s).
Proof. apply finditer_from_matches. Qed.

(** Every match starts at a position of the subject. *)
Lemma finditer_from_starts fuel p s :
  Forall (λ m, ∃ pre, s = pre ++ m_start m) (finditer_from fuel p s).
Proof.
  revert s. induction fuel as [|fuel IH]; intros s; simpl; [constructor|].
  destruct (search p s) as [m|] eqn:Hs; [|constructor].
  apply search_suffix in Hs as (sk & u & Hs & Hst & Hm).
  constructor; [exists sk; by rewrite Hst|].
  assert (∀ s', (∃ w, s = w ++ s') →
            Forall (λ m, ∃ pre, s = pre ++ m_start m) (finditer_from fuel p s'))
    as Hsub.
  { intros s' [w ->]. eapply Forall_impl; [apply IH|].
    intros m' [pre ->]. exists (w ++ pre). by rewrite app_assoc. }
  destruct (_ <? _)%nat.
  - apply Hsub. exists (sk ++ u). by rewrite <- app_assoc.
  - destruct (m_end m) as [|x e] eqn:He; [constructor|].
    apply Hsub. exists (sk ++ u ++ [x]). rewrite Hs. by rewrite <- !app_assoc.
Qed.

Lemma finditer_starts p s :
  Forall (λ m, ∃ pre, s = pre ++ m_start m) (finditer p s).
Proof. apply finditer_from_starts. Qed.

Lemma app_link_group m :
  match_at APP_LINK_RE (m_start m) = Some m →
  group m 1 = Some (token m) ∧ token m ≠ []
  ∧ amp ∉ token m ∧ dquote ∉ token m.
Proof.
  intros (o & b & h & tok & q & c & t & _ & _ & _ & _ & _ & Htok & Hfree
          & _ & _ & _ & _ & Hmk)%app_link_match_inv.
  assert (group m 1 = Some tok) as Hg.
  { cbn. rewrite Hmk. cbn. by rewrite span_app. }
  unfold token. rewrite Hg. cbn.
  apply free_of_2 in Hfree as [? ?]. done.
Qed.


Lemma kept_tokens_fresh seen ms :
  Forall (λ m, token m ∉ seen) (kept seen ms).
Proof.
  revert seen. induction ms as [|m ms IH]; intros seen; simpl; [constructor|].
  destruct (decide (token m ∈ seen)); [apply IH|].
  constructor; [done|].
  eapply Forall_impl; [apply IH|]. simpl. set_solver.
Qed.

Lemma kept_NoDup seen ms : NoDup (token <$> kept seen ms).
Proof.
  revert seen. induction ms as [|m ms IH]; intros seen; simpl; [constructor|].
  destruct (decide (token m ∈ seen)); [apply IH|].
  rewrite fmap_cons. constructor; [|apply IH].
  pose proof (kept_tokens_fresh ({[token m]} ∪ seen) ms) as Hfresh.
  rewrite Forall_forall in Hfresh.
  intros (m' & Heq & Hin)%list_elem_of_fmap.
  specialize (Hfresh _ Hin). set_solver.
Qed.



(** A kept match is the first one with its identifier. *)
Lemma kept_lookup seen ms i m :
  kept seen ms !! i = Some m →
  token m ∉ seen
  ∧ ∃ j, ms !! j = Some m
         ∧ ∀ j' m', (j' < j)%nat → ms !! j' = Some m' → token m' ≠ token m.
Proof.
  revert seen i. induction ms as [|m0 ms IH]; intros seen i; simpl; [done|].
  destruct (decide (token m0 ∈ seen)) as [Hin|Hnin].
  - intros (Hfresh & j & Hj & Hfirst)%IH. split; [done|].
    exists (S j). split; [done|].
    intros [|j'] m' Hlt; simpl.
    + intros [= <-] Heq. by rewrite Heq in Hin.
    + apply Hfirst. lia.
  - destruct i as [|i]; simpl.
    + intros [= <-]. split; [done|]. exists 0%nat. split; [done|]. lia.
    + intros (Hfresh & j & Hj & Hfirst)%IH. split; [set_solver|].
      exists (S j). split; [done|].
      intros [|j'] m' Hlt; simpl.
      * intros [= <-] Heq. set_solver.
      * apply Hfirst. lia.
Qed.

Section WithValue.

Variable value : str → str.

Lemma imap_entry_rank (ms : list Match) n :
  rank <$> imap (λ i, entry_of value (n + i)) ms
  = seqZ (Z.of_nat n + 1) (Z.of_nat (length ms)).
Proof.
  revert n. induction ms as [|m ms IH]; intros n; [done|].
  cbn [imap fmap list_fmap length].
  rewrite Nat2Z.inj_succ, seqZ_cons by lia. f_equal.
  - cbn. f_equal. lia.
  - rewrite Z.pred_succ.
    replace (Z.succ (Z.of_nat n + 1))%Z with (Z.of_nat (S n) + 1)%Z by lia.
    rewrite <- IH. f_equal. apply imap_ext. intros i x _. cbn.
    by rewrite Nat.add_succ_r.
Qed.

Lemma imap_entry_ids (ms : list Match) n :
  app_id <$> imap (λ i, entry_of value (n + i)) ms = token <$> ms.
Proof.
  revert n. induction ms as [|m ms IH]; intros n; [done|].
  cbn [imap]. rewrite !fmap_cons. f_equal.
  rewrite <- (IH (S n)). f_equal. apply imap_ext. intros i x _. cbn.
  by rewrite Nat.add_succ_r.
Qed.

Lemma imap_entry_lookup (ms : list Match) i e :
  imap (entry_of value) ms !! i = Some e →
  ∃ m, ms !! i = Some m ∧ e = entry_of value i m.
Proof.
  rewrite list_lookup_imap. destruct (ms !! i) as [m|]; [|done].
  intros [= <-]. by exists m.
Qed.

End WithValue.

Section WithUnescape.

Variable unescape : str → option str.

(** When [unescape] returns on the label, the title is the one computed
    from what it returned. *)
Lemma label_title_returned m t :
  label_title unescape m = Some t →
  title_of (returned unescape) (whole m) = t.
Proof.
  unfold label_title, label_value, title_of, returned.
  destruct (search ARIA_LABEL_RE (whole m)) as [lm|] eqn:Hs;
    cbn [mbind option_bind]; [|by intros [= <-]].
  apply aria_search_Some in Hs as (before & v & _ & -> & _).
  change (default [] (Some v)) with v.
  destruct (unescape v) as [u|]; [|done]. by intros [= <-].
Qed.

Lemma extract_step_eq entries seen m :
  match_at APP_LINK_RE (m_start m) = Some m →
  extract_step unescape (entries, seen) m
  = if decide (token m ∈ seen) then Some (entries, seen)
    else t ← label_title unescape m;
         Some (entries ++ [{| rank := Z.of_nat (length entries) + 1;
                              app_id := token m; title := t |}],
               {[ token m ]} ∪ seen).
Proof.
  intros (Hg & _)%app_link_group. unfold extract_step.
  rewrite Hg. cbn [mbind option_bind].
  destruct (decide (token m ∈ seen)); [done|].
  change (group m 0) with (Some (whole m)). cbn [mbind option_bind].
  unfold label_title, label_value.
  destruct (search ARIA_LABEL_RE (whole m)) as [lm|] eqn:Hs;
    cbn [mbind option_bind]; [|done].
  apply aria_search_Some in Hs as (before & v & _ & -> & _).
  cbn [mbind option_bind]. by destruct (unescape v).
Qed.

(** The loop returns when [unescape] returns on the label of every match
    that it keeps, and then it makes one entry per kept match. *)
Lemma extract_loop_Some entries seen ms :
  Forall (λ m, match_at APP_LINK_RE (m_start m) = Some m) ms →
  Forall (label_ok unescape) (kept seen ms) →
  extract_loop unescape (entries, seen) ms
  = Some (entries
          ++ imap (λ i, entry_of (returned unescape) (length entries + i))
                  (kept seen ms),
          seen ∪ list_to_set (token <$> ms)).
Proof.
  intros Hms. revert entries seen.
  induction Hms as [|m ms Hm Hms IH]; intros entries seen Hok;
    cbn [extract_loop].
  - cbn. rewrite app_nil_r. do 2 f_equal. set_solver.
  - rewrite (extract_step_eq _ _ _ Hm). cbn [kept] in Hok |- *.
    destruct (decide (token m ∈ seen)); cbn [mbind option_bind].
    + rewrite IH by done. do 2 f_equal. rewrite fmap_cons. set_solver.
    + apply Forall_cons in Hok as [[t Ht] Hok'].
      rewrite Ht. cbn [mbind option_bind]. rewrite IH by done.
      f_equal. f_equal.
      * rewrite <- app_assoc. f_equal. cbn [app imap]. f_equal.
        -- unfold entry_of. rewrite Nat.add_0_r.
           by rewrite (label_title_returned _ _ Ht).
        -- apply imap_ext. intros i x _. cbn. f_equal.
           rewrite length_app. cbn. lia.
      * rewrite fmap_cons. set_solver.
Qed.

(** It raises as soon as [unescape] raises on the label of a kept match. *)
Lemma extract_loop_returns entries seen ms :
  Forall (λ m, match_at APP_LINK_RE (m_start m) = Some m) ms →
  is_Some (extract_loop unescape (entries, seen) ms) →
  Forall (label_ok unescape) (kept seen ms).
Proof.
  intros Hms. revert entries seen.
  induction Hms as [|m ms Hm Hms IH]; intros entries seen;
    cbn [extract_loop kept]; [constructor|].
  rewrite (extract_step_eq _ _ _ Hm).
  destruct (decide (token m ∈ seen)); cbn [mbind option_bind]; [apply IH|].
  destruct (label_title unescape m) as [t|] eqn:Ht; cbn [mbind option_bind].
  - intros ?%IH. constructor; [by exists t|done].
  - by intros [? ?].
Qed.

(** What [extract_apps] computes: it returns exactly when [unescape]
    returns on the labels of the kept matches, and then it returns one
    entry per kept match, numbered from one. *)
Lemma extract_apps_Some html es :
  extract_apps unescape html = Some es
  ↔ labels_ok unescape html
    ∧ es = imap (entry_of (returned unescape))
                (kept ∅ (finditer APP_LINK_RE html)).
Proof.
  unfold extract_apps, labels_ok.
  pose proof (finditer_matches APP_LINK_RE html) as Hms. split.
  - intros Hes.
    assert (Forall (label_ok unescape) (kept ∅ (finditer APP_LINK_RE html)))
      as Hok.
    { apply (extract_loop_returns [] ∅ _ Hms).
      destruct (extract_loop _ _ _); [done|discriminate Hes]. }
    split; [done|].
    rewrite (extract_loop_Some [] ∅ _ Hms Hok) in Hes.
    by injection Hes as <-.
  - intros [Hok ->]. by rewrite (extract_loop_Some [] ∅ _ Hms Hok).
Qed.

Lemma extract_apps_returns html :
  is_Some (extract_apps unescape html) ↔ labels_ok unescape html.
Proof.
  split.
  - intros [es Hes]. by apply extract_apps_Some in Hes as [? _].
  - intros Hok. eexists. by apply extract_apps_Some.
Qed.


End WithUnescape.

End Loop.

(** * When [html.unescape] raises *)

Module CharRef.
Import Spec.
Import SreFacts Patterns Loop.

Lemma digits_run_app v post : (digits_run v ≤ digits_run (v ++ post))%nat.
Proof.
  induction v as [|c v IH]; cbn [app digits_run]; [lia|].
  destruct (ascii_digit c); lia.
Qed.

Lemma long_charref_unfold c h ds :
  long_charref (c :: h :: ds)
  = if (c =? amp) && (h =? 35)
    then if (MAX_STR_DIGITS <? digits_run ds)%nat then true
         else long_charref (h :: ds)
    else long_charref (h :: ds).
Proof. reflexivity. Qed.

Lemma long_charref_cons c s :
  long_charref s = true → long_charref (c :: s) = true.
Proof.
  destruct s as [|h ds]; [done|]. intros Hs.
  rewrite long_charref_unfold, Hs.
  destruct ((c =? amp) && (h =? 35)); [|done].
  by destruct (MAX_STR_DIGITS <? digits_run ds)%nat.
Qed.

Lemma long_charref_app_l pre v :
  long_charref v = true → long_charref (pre ++ v) = true.
Proof.
  intros Hv. induction pre as [|c pre IH]; [done|].
  cbn [app]. by apply long_charref_cons.
Qed.

Lemma long_charref_app_r v post :
  long_charref v = true → long_charref (v ++ post) = true.
Proof.
  induction v as [|c v IH]; [done|].
  destruct v as [|h ds]; [done|].
  cbn [app] in IH |- *. rewrite !long_charref_unfold.
  destruct ((c =? amp) && (h =? 35)); [|exact IH].
  pose proof (digits_run_app ds post) as Hle.
  destruct (Nat.ltb_spec MAX_STR_DIGITS (digits_run ds)) as [Hlt|_];
    destruct (Nat.ltb_spec MAX_STR_DIGITS (digits_run (ds ++ post)))
      as [_|Hge]; [done| |done|exact IH].
  intros _. exfalso. eapply Nat.lt_irrefl, Nat.lt_le_trans; [exact Hlt|].
  by etrans.
Qed.

(** A text without a long reference has none in any of its parts. *)
Lemma long_charref_infix pre v post :
  long_charref (pre ++ v ++ post) = false → long_charref v = false.
Proof.
  intros H. destruct (long_charref v) eqn:Hv; [|done].
  by rewrite (long_charref_app_l pre _ (long_charref_app_r v post Hv)) in H.
Qed.

(** The label of a match found in a page is a part of the page. *)
Lemma label_value_infix html m v :
  m ∈ finditer APP_LINK_RE html → label_value m = Some v →
  ∃ pre post, html = pre ++ v ++ post.
Proof.
  intros (j & Hj)%list_elem_of_lookup_1 Hv.
  pose proof (finditer_matches APP_LINK_RE html) as Hall.
  pose proof (finditer_starts APP_LINK_RE html) as Hst.
  rewrite Forall_lookup in Hall, Hst.
  destruct (Hst _ _ Hj) as [pre Hpre].
  destruct (match_at_suffix _ _ _ (Hall _ _ Hj)) as (_ & u & Hu & Hg).
  injection Hg as Hg. change (whole m = u) in Hg.
  unfold label_value in Hv.
  destruct (search ARIA_LABEL_RE (whole m)) as [lm|] eqn:Hs; [|done].
  cbn [mbind option_bind] in Hv.
  apply aria_search_Some in Hs as (before & v' & (after & Hw & _) & Hv' & _).
  rewrite Hv' in Hv. injection Hv as ->.
  exists (pre ++ before ++ ARIA_PREFIX), (dquote :: after ++ m_end m).
  rewrite Hpre, Hu, <- Hg, Hw. by rewrite <- !app_assoc.
Qed.

Lemma kept_subseteq seen ms m : m ∈ kept seen ms → m ∈ ms.
Proof.
  intros (i & Hi)%list_elem_of_lookup_1.
  destruct (kept_lookup _ _ _ _ Hi) as (_ & j & Hj & _).
  by eapply list_elem_of_lookup_2.
Qed.

(** On a page without a decimal reference of more than 4300 digits the
    library function returns on every label. *)
Lemma labels_ok_html_unescape value html :
  long_charref html = false → labels_ok (html_unescape value) html.
Proof.
  intros Hhtml. apply Forall_forall. intros m Hm%kept_subseteq.
  unfold label_ok, label_title.
  destruct (label_value m) as [v|] eqn:Hv; [|done].
  destruct (label_value_infix _ _ _ Hm Hv) as (pre & post & ->).
  unfold html_unescape. rewrite (long_charref_infix _ _ _ Hhtml). by eexists.
Qed.

End CharRef.

(** * Pages made of well-formed anchors *)

Module Page.
Import Spec.
Import SreFacts Patterns Loop.














End Page.

(** * Results about [extract_apps] *)

Module ExtractSpec.
Import Spec.
Import SreFacts Patterns Loop CharRef Page.



Lemma imap_entry_of_0 value (ms : list Match) :
  imap (entry_of value) ms = imap (λ i, entry_of value (0 + i)) ms.
Proof. done. Qed.

Example sample_page_entries :
  extract_apps Some sample_page
  = Some [ {| rank := 1; app_id := U "com.app.one"; title := U "One Game" |};
           {| rank := 2; app_id := U "com.app.two"; title := [] |} ].
Proof. vm_compute. reflexivity. Qed.

Lemma split_first_unique (x : char) u u' a a' :
  u ++ x :: a = u' ++ x :: a' → x ∉ u → x ∉ u' → u = u'.
Proof.
  revert u'. induction u as [|y u IH]; intros [|y' u']; cbn [app].
  - done.
  - intros [= <- _] _ H. set_solver.
  - intros [= -> _] H. set_solver.
  - intros [= <- Heq] Hu Hu'. f_equal. apply IH; [done|set_solver..].
Qed.

Lemma labelled_same g before v before' v' :
  labelled g before v → labelled g before' v' →
  length before = length before' → v = v'.
Proof.
  intros (a & Hg & _ & Hv) (a' & Hg' & _ & Hv') Hlen.
  rewrite Hg in Hg'.
  apply app_inj_1 in Hg' as [_ Heq]; [|done].
  apply app_inv_head in Heq. by eapply split_first_unique.
Qed.

Section Claims.

Variable unescape : str → option str.


(** C4. [extract_apps] returns a list as soon as [unescape] returns on the
    labels, and every list that it returns has ranks 1, 2, 3, ... in
    output order, only non-empty identifiers, and no identifier twice. *)
Theorem extract_apps_invariant html :
  (labels_ok unescape html → ∃ es, extract_apps unescape html = Some es)
  ∧ ∀ es, extract_apps unescape html = Some es →
          rank <$> es = seqZ 1 (Z.of_nat (length es))
          ∧ Forall (λ e, app_id e ≠ []) es
          ∧ NoDup (app_id <$> es).
Proof.
  split; [by intros ?%extract_apps_returns|].
  intros es (_ & ->)%extract_apps_Some.
  rewrite imap_entry_of_0, imap_entry_ids, imap_entry_rank, length_imap.
  split_and!; [done| |apply kept_NoDup].
  apply Forall_forall. intros e (i & Hi)%list_elem_of_lookup_1.
  apply imap_entry_lookup in Hi as (m & Hm & ->). cbn.
  destruct (kept_lookup _ _ _ _ Hm) as (_ & j & Hj & _).
  pose proof (finditer_matches APP_LINK_RE html) as Hall.
  rewrite Forall_lookup in Hall.
  by destruct (app_link_group m (Hall _ _ Hj)) as (_ & ? & _).
Qed.

(** C7, amended.  [extract_apps] returns a list exactly when [unescape]
    returns on the label of every anchor that it keeps, and raises
    otherwise.  When the pattern matches nowhere in the input it returns
    the empty list.  With the library function it returns a list on every
    input that holds no decimal character reference of more than 4300
    digits, however malformed the markup is. *)
Theorem extract_apps_total html :
  ((∃ es, extract_apps unescape html = Some es) ↔ labels_ok unescape html)
  ∧ (extract_apps unescape html = None
     ↔ ∃ m v, m ∈ kept ∅ (finditer APP_LINK_RE html)
              ∧ label_value m = Some v ∧ unescape v = None)
  ∧ (search APP_LINK_RE html = None → extract_apps unescape html = Some [])
  ∧ (∀ value, long_charref html = false →
              ∃ es, extract_apps (html_unescape value) html = Some es).
Proof.
  split_and!.
  - apply extract_apps_returns.
  - split.
    + intros Hnone.
      destruct (decide (Exists (λ m, ¬ label_ok unescape m)
                          (kept ∅ (finditer APP_LINK_RE html))))
        as [Hex|Hall].
      * apply Exists_exists in Hex as (m & Hm & Hbad).
        unfold label_ok, label_title in Hbad.
        destruct (label_value m) as [v|] eqn:Hv; [|by destruct Hbad].
        exists m, v. split_and!; [done..|].
        destruct (unescape v); [by destruct Hbad|done].
      * apply not_Exists_Forall in Hall; [|apply _].
        assert (labels_ok unescape html) as Hok.
        { eapply Forall_impl; [exact Hall|]. intros m Hm. cbn in Hm.
          by destruct (decide (label_ok unescape m)). }
        apply extract_apps_returns in Hok as [es Hes]. congruence.
    + intros (m & v & Hm & Hv & Hnone).
      destruct (extract_apps unescape html) as [es|] eqn:Hes; [|done].
      apply extract_apps_Some in Hes as [Hok _].
      unfold labels_ok in Hok. rewrite Forall_forall in Hok.
      destruct (Hok _ Hm) as [t Ht]. unfold label_title in Ht.
      by rewrite Hv, Hnone in Ht.
  - intros Hnone. apply extract_apps_Some.
    unfold labels_ok. rewrite finditer_unfold, Hnone. by split.
  - intros value Hhtml.
    by apply extract_apps_returns, labels_ok_html_unescape.
Qed.


(** C5. Every entry comes from the first matching anchor that carries its
    identifier.  If the matched text of that anchor contains the label
    attribute (the attribute name, an equals sign and a non-empty quoted
    value), [unescape] returned on the value of its leftmost occurrence and
    the title is what it returned with surrounding whitespace stripped; if
    it contains none, the title is empty. *)
Theorem extract_apps_title html es i e :
  extract_apps unescape html = Some es → es !! i = Some e →
  ∃ j m g,
    finditer APP_LINK_RE html !! j = Some m
    ∧ group m 1 = Some (app_id e) ∧ group m 0 = Some g
    ∧ (∀ j' m', (j' < j)%nat → finditer APP_LINK_RE html !! j' = Some m' →
                group m' 1 ≠ Some (app_id e))
    ∧ (∀ before v,
         labelled g before v →
         (∀ before' v', labelled g before' v' →
                        (length before ≤ length before')%nat) →
         strip <$> unescape v = Some (title e))
    ∧ ((∀ before v, ¬ labelled g before v) → title e = []).
Proof.
  intros (Hok & ->)%extract_apps_Some Hi.
  apply imap_entry_lookup in Hi as (m & Hm & ->).
  destruct (kept_lookup _ _ _ _ Hm) as (_ & j & Hj & Hfirst).
  pose proof (finditer_matches APP_LINK_RE html) as Hall.
  rewrite Forall_lookup in Hall.
  destruct (app_link_group m (Hall _ _ Hj)) as (Hg & _).
  unfold labels_ok in Hok. rewrite Forall_lookup in Hok.
  destruct (Hok _ _ Hm) as [t Ht].
  pose proof (label_title_returned _ _ _ Ht) as Htitle.
  exists j, m, (whole m). split_and!; [done|done|done| | |].
  - intros j' m' Hlt Hj' Hg'.
    destruct (app_link_group m' (Hall _ _ Hj')) as (Hg'' & _).
    rewrite Hg'' in Hg'. injection Hg' as Heq.
    by apply (Hfirst j' m' Hlt Hj').
  - intros before v Hlab Hleft. cbn [title entry_of]. rewrite Htitle.
    unfold label_title, label_value in Ht.
    destruct (search ARIA_LABEL_RE (whole m)) as [lm|] eqn:Hs.
    + apply aria_search_Some in Hs as (before0 & v0 & Hlab0 & Hv0 & Hleft0).
      cbn [mbind option_bind] in Ht. rewrite Hv0 in Ht.
      assert (v0 = v) as <-; [|done].
      apply (labelled_same _ _ _ _ _ Hlab0 Hlab).
      apply Nat.le_antisymm; [by eapply Hleft0|by eapply Hleft].
    + by destruct (aria_search_None _ Hs before v).
  - intros Hnone. cbn [title entry_of]. unfold title_of.
    destruct (search ARIA_LABEL_RE (whole m)) as [lm|] eqn:Hs; [|done].
    apply aria_search_Some in Hs as (before0 & v0 & Hlab0 & _).
    by destruct (Hnone before0 v0).
Qed.

End Claims.

End ExtractSpec.

Module ExtractWitnesses.
Import Spec.
Import SreFacts Patterns Loop CharRef Page ExtractSpec.

Ltac by_compute :=
  match goal with
  | |- ?P => apply (bool_decide_unpack P); vm_compute; exact I
  end.




Lemma extract_apps_title_witness :
  ∃ j m g,
    finditer APP_LINK_RE sample_page !! j = Some m
    ∧ group m 1 = Some (U "com.app.one") ∧ group m 0 = Some g
    ∧ (∀ j' m', (j' < j)%nat →
                finditer APP_LINK_RE sample_page !! j' = Some m' →
                group m' 1 ≠ Some (U "com.app.one"))
    ∧ (∀ before v,
         labelled g before v →
         (∀ before' v', labelled g before' v' →
                        (length before ≤ length before')%nat) →
         strip <$> Some v = Some (U "One Game"))
    ∧ ((∀ before v, ¬ labelled g before v) → U "One Game" = []).
Proof.
  apply (extract_apps_title Some sample_page
           [ {| rank := 1; app_id := U "com.app.one"; title := U "One Game" |};
             {| rank := 2; app_id := U "com.app.two"; title := [] |} ]
           0%nat
           {| rank := 1; app_id := U "com.app.one"; title := U "One Game" |}).
  - vm_compute. reflexivity.
  - reflexivity.
Defined.

Lemma extract_apps_total_witness :
  extract_apps Some (U "<p>nothing <a name=top>here</a></p>") = Some []
  ∧ ∃ es, extract_apps (html_unescape (λ s, s)) sample_page = Some es.
Proof.
  destruct (extract_apps_total Some
              (U "<p>nothing <a name=top>here</a></p>")) as (_ & _ & Hnil & _).
  destruct (extract_apps_total Some sample_page) as (_ & _ & _ & Hret).
  split.
  - apply Hnil. vm_compute. reflexivity.
  - apply Hret. vm_compute. reflexivity.
Defined.

(** C7 as stated fails: on a page with one anchor whose label is a decimal
    character reference of 4301 digits the library function raises
    [ValueError], and [extract_apps] with it.  With 4300 digits it returns
    the entry. *)
Lemma extract_apps_claim_fails :
  (∀ value, extract_apps (html_unescape value) (charref_page 4301) = None)
  ∧ (∀ value,
       extract_apps (html_unescape value) (charref_page 4300)
       = Some [ {| rank := 1; app_id := U "com.app.one";
                   title := strip (value (charref 4300)) |} ]).
Proof. split; intros value; vm_compute; reflexivity. Qed.

End ExtractWitnesses.

(** * Trimming *)

Module TrimSpec.
Import Spec.

Local Open Scope Z_scope.

(** C6. For a non-negative limit [L] and a list of [N] entries: if
    [L < N] the result is the first [L] entries of the input, unchanged;
    if [L >= N], or if there is no limit, the result is the input. *)
Theorem trim_entries_limit (entries : list AppEntry) (L : Z) :
  0 ≤ L →
  (L < Z.of_nat (length entries) →
     trim_entries entries (Some L) = take (Z.to_nat L) entries
     ∧ Z.of_nat (length (trim_entries entries (Some L))) = L
     ∧ trim_entries entries (Some L) `prefix_of` entries
     ∧ ∀ i, (i < Z.to_nat L)%nat →
            trim_entries entries (Some L) !! i = entries !! i)
  ∧ (Z.of_nat (length entries) ≤ L → trim_entries entries (Some L) = entries)
  ∧ trim_entries entries None = entries.
Proof.
  intros HL. unfold trim_entries, slice_to.
  destruct (Z.ltb_spec L 0) as [?|_]; [lia|].
  split_and!; [|intros; apply take_ge; lia|done].
  intros Hlt. split_and!.
  - done.
  - rewrite length_take. lia.
  - apply prefix_take.
  - intros i Hi. by apply lookup_take_lt.
Qed.

Lemma trim_entries_limit_witness :
  trim_entries three_entries (Some 2)
  = [ {| rank := 1; app_id := U "a"; title := [] |};
      {| rank := 2; app_id := U "b"; title := [] |} ]
  ∧ trim_entries three_entries (Some 3) = three_entries
  ∧ trim_entries three_entries (Some 7) = three_entries.
Proof.
  destruct (trim_entries_limit three_entries 2 ltac:(lia)) as (H2 & _ & _).
  destruct (trim_entries_limit three_entries 3 ltac:(lia)) as (_ & H3 & _).
  destruct (trim_entries_limit three_entries 7 ltac:(lia)) as (_ & H7 & _).
  split_and!.
  - apply H2. vm_compute. reflexivity.
  - apply H3. vm_compute. discriminate.
  - apply H7. vm_compute. discriminate.
Defined.

(** C10. For a negative limit [n] the result is the slice [entries[:n]]:
    the input with its last [min (|n|, length)] entries removed, not a
    prefix of length [min (length, limit)].  On the empty list the result
    is empty for every limit. *)
Theorem trim_entries_negative (entries : list AppEntry) (n : Z) :
  n < 0 →
  (∃ removed,
     entries = trim_entries entries (Some n) ++ removed
     ∧ length removed = Nat.min (Z.to_nat (Z.abs n)) (length entries))
  ∧ trim_entries entries (Some n)
    = take (length entries - Z.to_nat (Z.abs n)) entries
  ∧ ∀ limit, trim_entries [] limit = [].
Proof.
  intros Hn. unfold trim_entries, slice_to.
  destruct (Z.ltb_spec n 0) as [_|?]; [|lia].
  replace (Z.to_nat (Z.of_nat (length entries) + n))
    with (length entries - Z.to_nat (Z.abs n))%nat by lia.
  split_and!.
  - exists (drop (length entries - Z.to_nat (Z.abs n)) entries).
    split; [by rewrite take_drop|]. rewrite length_drop. lia.
  - done.
  - intros [limit|]; [|done]. destruct (limit <? 0); by rewrite take_nil.
Qed.

Lemma trim_entries_negative_witness :
  trim_entries three_entries (Some (-1))
  = [ {| rank := 1; app_id := U "a"; title := [] |};
      {| rank := 2; app_id := U "b"; title := [] |} ]
  ∧ trim_entries three_entries (Some (-5)) = [].
Proof.
  destruct (trim_entries_negative three_entries (-1) ltac:(lia)) as (_ & H1 & _).
  destruct (trim_entries_negative three_entries (-5) ltac:(lia)) as (_ & H5 & _).
  split; [rewrite H1|rewrite H5]; reflexivity.
Defined.

End TrimSpec.

(** * Results about [build_url] *)

Module UrlSpec.
Import Url Spec.

Example build_url_default :
  build_url (U "ko") (U "KR") None
  = Some (U "https://play.google.com/store/apps/collection/topgrossing?hl=ko&gl=KR").
Proof. reflexivity. Qed.

Example build_url_category :
  build_url (U "en") (U "US") (Some (U "GAME & fun/1"))
  = Some (U "https://play.google.com/store/apps/collection/topgrossing?hl=en&gl=US&category=GAME+%26+fun%2F1").
Proof. reflexivity. Qed.

Example build_url_korean :
  build_url [54620] (U "KR") None
  = Some (U "https://play.google.com/store/apps/collection/topgrossing?hl=%ED%95%9C&gl=KR").
Proof. reflexivity. Qed.

Lemma utf8_char_Some c :
  c < 1114112 → ¬ (55296 ≤ c ≤ 57343) →
  ∃ bs, utf8_char c = Some bs ∧ Forall (λ b, b < 256) bs.
Proof.
  intros Hc Hs. unfold utf8_char.
  destruct (N.ltb_spec c 128); [eexists; split; [done|]|].
  { repeat constructor. lia. }
  destruct (N.ltb_spec c 2048); [eexists; split; [done|]|].
  { pose proof (N.Div0.div_lt_upper_bound c 64 32).
    pose proof (N.mod_lt c 64). repeat constructor; lia. }
  destruct (N.ltb_spec c 65536).
  { destruct (N.leb_spec 55296 c), (N.leb_spec c 57343); cbn [andb];
      try lia; (eexists; split; [done|]);
      pose proof (N.Div0.div_lt_upper_bound c 4096 16);
      pose proof (N.mod_lt (c / 64) 64); pose proof (N.mod_lt c 64);
      repeat constructor; lia. }
  destruct (N.ltb_spec c 1114112); [|lia]. eexists; split; [done|].
  pose proof (N.Div0.div_lt_upper_bound c 262144 8).
  pose proof (N.mod_lt (c / 4096) 64).
  pose proof (N.mod_lt (c / 64) 64); pose proof (N.mod_lt c 64).
  repeat constructor; lia.
Qed.

Lemma utf8_encode_Some s :
  encodable s → ∃ bs, utf8_encode s = Some bs ∧ Forall (λ b, b < 256) bs.
Proof.
  induction 1 as [|c s [Hc Hs] _ (bs & IH & Hbs)]; [by exists []|].
  destruct (utf8_char_Some c Hc Hs) as (b1 & Hb1 & Hlt).
  exists (b1 ++ bs). cbn [utf8_encode]. rewrite Hb1, IH.
  split; [done|]. by apply Forall_app.
Qed.

Lemma hex_upper_safe n : n < 16 → always_safe (hex_upper n) = true.
Proof.
  intros Hn. unfold hex_upper, always_safe.
  destruct (N.ltb_spec n 10).
  - replace ((48 <=? 48 + n) && (48 + n <=? 57)) with true;
      [by rewrite !orb_true_r|].
    symmetry. apply andb_true_iff. split; apply N.leb_le; lia.
  - replace ((65 <=? 55 + n) && (55 + n <=? 90)) with true; [done|].
    symmetry. apply andb_true_iff. split; apply N.leb_le; lia.
Qed.

Lemma quoter_safe safe b :
  b < 256 → Forall (λ c, always_safe c || in_set c safe || (c =? 37) = true)
                   (quoter safe b).
Proof.
  intros Hb. unfold quoter.
  destruct (always_safe b || in_set b safe) eqn:Hs.
  - repeat constructor. by rewrite Hs.
  - pose proof (N.Div0.div_lt_upper_bound b 16 16).
    pose proof (N.mod_lt b 16).
    repeat constructor; [by rewrite orb_true_r|..];
      rewrite hex_upper_safe by lia; done.
Qed.

Lemma quote_safe s safe q :
  encodable s → quote s safe = Some q →
  Forall (λ c, always_safe c || in_set c safe || (c =? 37) = true) q.
Proof.
  intros (bs & Hbs & Hlt)%utf8_encode_Some. unfold quote. rewrite Hbs.
  intros [= <-]. clear Hbs. induction Hlt as [|b bs Hb _ IH]; [constructor|].
  cbn [flat_map]. apply Forall_app. split; [by apply quoter_safe|done].
Qed.

Lemma quote_Some s safe :
  encodable s →
  ∃ q, quote s safe = Some q
       ∧ Forall (λ c, always_safe c || in_set c safe || (c =? 37) = true) q.
Proof.
  intros Hs. destruct (utf8_encode_Some s Hs) as (bs & Hbs & _).
  assert (quote s safe = Some (flat_map (quoter safe) bs)) as Hq.
  { unfold quote. by rewrite Hbs. }
  eexists. split; [exact Hq|]. by eapply quote_safe.
Qed.

Lemma quote_plus_Some s :
  encodable s →
  ∃ q, quote_plus s = Some q ∧ Forall (λ c, query_safe c = true) q.
Proof.
  intros Hs. unfold quote_plus. destruct (in_set 32 s).
  - destruct (quote_Some s [32] Hs) as (q & -> & Hq).
    eexists. split; [done|]. unfold replace_char.
    apply Forall_fmap. eapply Forall_impl; [exact Hq|].
    intros c Hc. cbn. unfold query_safe.
    destruct (N.eqb_spec c 32) as [->|Hne]; [done|].
    unfold in_set in Hc. cbn in Hc.
    apply N.eqb_neq in Hne. rewrite Hne in Hc. cbn in Hc.
    apply orb_true_iff in Hc as [Hc| ->]; [|by rewrite orb_true_r].
    rewrite orb_false_r in Hc. by rewrite Hc.
  - destruct (quote_Some s [] Hs) as (q & -> & Hq).
    eexists. split; [done|]. eapply Forall_impl; [exact Hq|].
    intros c Hc. cbn in Hc. unfold query_safe.
    apply orb_true_iff in Hc as [Hc| ->]; [|by rewrite orb_true_r].
    rewrite orb_false_r in Hc. by rewrite Hc.
Qed.

(** C8 as stated fails on two inputs: a category that is given but empty
    is left out of the URL, and an argument with a lone surrogate (what an
    undecodable command-line byte becomes) makes the encoder fail. *)
Lemma build_url_claim_fails :
  build_url (U "ko") (U "KR") (Some [])
  = Some (BASE_URL ++ U "?hl=ko&gl=KR")
  ∧ (∀ qc, build_url (U "ko") (U "KR") (Some [])
           ≠ Some (BASE_URL ++ U "?hl=ko&gl=KR&category=" ++ qc))
  ∧ build_url [56507] (U "KR") None = None.
Proof.
  split_and!; [reflexivity| |reflexivity].
  intros qc H.
  change (build_url (U "ko") (U "KR") (Some []))
    with (Some (BASE_URL ++ U "?hl=ko&gl=KR")) in H.
  injection H as H. discriminate H.
Qed.

(** C8, amended.  [build_url] is a function of its three arguments.  When
    they can be encoded as UTF-8 it returns the fixed endpoint followed by
    the query [hl=...&gl=...], and by [&category=...] exactly when a
    non-empty category is given, in that order; every value is passed
    through [quote_plus], whose result only contains letters, digits,
    [_.-~], [+] and percent escapes.  No other check is made on the
    values. *)
Theorem build_url_spec language region category :
  encodable language → encodable region →
  (∀ c, category = Some c → encodable c) →
  ∃ ql qr,
    quote_plus language = Some ql ∧ quote_plus region = Some qr
    ∧ Forall (λ c, query_safe c = true) ql
    ∧ Forall (λ c, query_safe c = true) qr
    ∧ match category with
      | Some (x :: c) =>
          ∃ qc, quote_plus (x :: c) = Some qc
                ∧ Forall (λ c, query_safe c = true) qc
                ∧ build_url language region category
                  = Some (BASE_URL ++ U "?hl=" ++ ql ++ U "&gl=" ++ qr
                          ++ U "&category=" ++ qc)
      | _ =>
          build_url language region category
          = Some (BASE_URL ++ U "?hl=" ++ ql ++ U "&gl=" ++ qr)
      end.
Proof.
  intros Hl Hr Hc.
  destruct (quote_plus_Some _ Hl) as (ql & Hql & Hsl).
  destruct (quote_plus_Some _ Hr) as (qr & Hqr & Hsr).
  exists ql, qr. split_and!; try done.
  assert (build_url language region None
          = Some (BASE_URL ++ U "?hl=" ++ ql ++ U "&gl=" ++ qr)) as Hnone.
  { unfold build_url, urlencode. cbn [mapM fst snd].
    change (quote_plus (U "hl")) with (Some (U "hl")).
    change (quote_plus (U "gl")) with (Some (U "gl")).
    rewrite Hql, Hqr. cbn [mbind option_bind mret option_ret str_join].
    by repeat (rewrite <- ?app_assoc; cbn [app U ord_string]). }
  destruct category as [[|x c]|]; [exact Hnone|..|exact Hnone].
  destruct (quote_plus_Some (x :: c) (Hc _ eq_refl)) as (qc & Hqc & Hsc).
  exists qc. split_and!; try done.
  unfold build_url, urlencode. cbn [mapM fst snd app].
  change (quote_plus (U "hl")) with (Some (U "hl")).
  change (quote_plus (U "gl")) with (Some (U "gl")).
  change (quote_plus (U "category")) with (Some (U "category")).
  rewrite Hql, Hqr, Hqc. cbn [mbind option_bind mret option_ret str_join].
  by repeat (rewrite <- ?app_assoc; cbn [app U ord_string]).
Qed.

Lemma build_url_spec_witness :
  ∃ ql qr,
    quote_plus (U "ko") = Some ql ∧ quote_plus (U "KR") = Some qr
    ∧ Forall (λ c, query_safe c = true) ql
    ∧ Forall (λ c, query_safe c = true) qr
    ∧ ∃ qc, quote_plus (U "GAME") = Some qc
            ∧ Forall (λ c, query_safe c = true) qc
            ∧ build_url (U "ko") (U "KR") (Some (U "GAME"))
              = Some (BASE_URL ++ U "?hl=" ++ ql ++ U "&gl=" ++ qr
                      ++ U "&category=" ++ qc).
Proof.
  apply (build_url_spec (U "ko") (U "KR") (Some (U "GAME"))).
  - repeat constructor; cbn; lia.
  - repeat constructor; cbn; lia.
  - intros c [= <-]. repeat constructor; cbn; lia.
Defined.

End UrlSpec.

(** * Round trips *)

Module RoundTrip.
Import Spec.
Import Url Output Readers.

(** ** Integers *)

Lemma scan_digits_uint u rest :
  no_digit rest → scan_digits (uint_digits u ++ rest) = (u, rest).
Proof.
  intros Hrest. induction u as [|u IH|u IH|u IH|u IH|u IH|u IH|u IH|u IH|u IH|u IH];
    cbn [uint_digits app scan_digits];
    try (change (is_digit _) with true; cbn iota; rewrite IH; reflexivity).
  destruct rest as [|c rest]; [done|]. cbn in Hrest |- *. by rewrite Hrest.
Qed.

(** A normalised numeral that is not zero starts with a non-zero digit. *)
Lemma unorm_fixed_head u :
  Decimal.unorm u = u → u ≠ Decimal.zero →
  ∃ c r, uint_digits u = c :: r ∧ is_digit c = true ∧ c ≠ 48.
Proof.
  intros Hfix Hnz. destruct u as [|u|u|u|u|u|u|u|u|u|u];
    try (eexists _, _; split; [reflexivity|split; [reflexivity|done]]).
  - done.
  - exfalso. rewrite DecimalFacts.unorm_D0 in Hfix.
    assert (u ≠ Decimal.Nil) as Hu by (by intros ->).
    pose proof (DecimalFacts.nb_digits_unorm u Hu) as Hlen.
    rewrite Hfix in Hlen. cbn in Hlen. lia.
Qed.

Lemma pos_to_uint_head p :
  ∃ c r, uint_digits (Pos.to_uint p) = c :: r ∧ is_digit c = true ∧ c ≠ 48.
Proof.
  apply unorm_fixed_head; [|apply DecimalPos.Unsigned.to_uint_nonzero].
  rewrite <- (DecimalPos.Unsigned.to_of (Pos.to_uint p)).
  by rewrite DecimalPos.Unsigned.of_to.
Qed.

Lemma scan_uint_pos p rest :
  no_digit rest →
  scan_uint (uint_digits (Pos.to_uint p) ++ rest) = Some (Pos.to_uint p, rest).
Proof.
  intros Hrest. destruct (pos_to_uint_head p) as (c & r & Heq & Hd & Hnz).
  pose proof (scan_digits_uint (Pos.to_uint p) rest Hrest) as Hscan.
  rewrite Heq in *. cbn [app scan_uint] in *.
  apply N.eqb_neq in Hnz. by rewrite Hnz, Hd, Hscan.
Qed.

Lemma scan_number_int_str z rest :
  number_ends rest → scan_number (int_str z ++ rest) = Some (z, rest).
Proof.
  intros [Hd Hf]. unfold int_str. destruct z as [|p|p]; cbn [Z.to_int].
  - cbn. by rewrite Hf.
  - destruct (pos_to_uint_head p) as (c & r & Heq & Hc & Hnz).
    pose proof (scan_uint_pos p rest Hd) as Hscan. rewrite Heq in *.
    cbn [app scan_number] in *.
    assert (c =? 45 = false) as ->.
    { apply N.eqb_neq. intros ->. done. }
    rewrite Hscan. cbn [mbind option_bind]. rewrite Hf.
    do 2 f_equal. apply (DecimalZ.of_to (Z.pos p)).
  - cbn [app scan_number]. change (45 =? 45) with true. cbn iota.
    rewrite (scan_uint_pos p rest Hd). cbn [mbind option_bind]. rewrite Hf.
    do 2 f_equal. apply (DecimalZ.of_to (Z.neg p)).
Qed.

Lemma int_str_head z :
  ∃ c r, int_str z = c :: r ∧ (is_digit c = true ∨ c = 45).
Proof.
  unfold int_str. destruct z as [|p|p]; cbn [Z.to_int].
  - eexists _, _. split; [reflexivity|by left].
  - destruct (pos_to_uint_head p) as (c & r & -> & Hc & _).
    eexists _, _. split; [reflexivity|by left].
  - eexists _, _. split; [reflexivity|by right].
Qed.

(** ** JSON strings *)

Lemma below_32 (P : N → Prop) :
  Forall P (N.of_nat <$> seq 0 32) → ∀ c, c < 32 → P c.
Proof.
  intros Hall c Hc. rewrite Forall_forall in Hall. apply Hall.
  rewrite <- (N2Nat.id c). apply list_elem_of_fmap_2, elem_of_seq. lia.
Qed.

Lemma hex_control c :
  c < 32 → hex4 48 48 (hex_lower (c / 16)) (hex_lower (c mod 16)) = Some c.
Proof.
  revert c. apply below_32. vm_compute. repeat constructor.
Qed.

Lemma scanstring_escape_char c X :
  scanstring (escape_char c ++ X)
  = '(r, rest) ← scanstring X; Some (c :: r, rest).
Proof.
  unfold escape_char.
  destruct (N.eqb_spec c 92) as [->|H92]; [reflexivity|].
  destruct (N.eqb_spec c dquote) as [->|H34]; [reflexivity|].
  destruct (N.eqb_spec c 8) as [->|H8]; [reflexivity|].
  destruct (N.eqb_spec c 12) as [->|H12]; [reflexivity|].
  destruct (N.eqb_spec c 10) as [->|H10]; [reflexivity|].
  destruct (N.eqb_spec c 13) as [->|H13]; [reflexivity|].
  destruct (N.eqb_spec c 9) as [->|H9]; [reflexivity|].
  destruct (N.ltb_spec c 32) as [Hlt|Hge].
  - cbn [app scanstring]. change (92 =? dquote) with false.
    change (92 =? 92) with true. change (117 =? 117) with true. cbn iota.
    rewrite (hex_control c Hlt). cbn [mbind option_bind].
    assert ((55296 <=? c) && (c <=? 56319) = false) as ->.
    { apply andb_false_iff. left. apply N.leb_gt. lia. }
    done.
  - cbn [app scanstring].
    apply N.eqb_neq in H34, H92. rewrite H34, H92.
    assert (c <? 32 = false) as -> by (apply N.ltb_ge; lia).
    done.
Qed.

Lemma scanstring_escaped s rest :
  scanstring (flat_map escape_char s ++ dquote :: rest) = Some (s, rest).
Proof.
  induction s as [|c s IH]; [reflexivity|].
  cbn [flat_map]. rewrite <- app_assoc, scanstring_escape_char.
  by rewrite IH.
Qed.

Lemma scanstring_basestring s rest :
  ∃ body, encode_basestring s ++ rest = dquote :: body
          ∧ scanstring body = Some (s, rest).
Proof.
  exists (flat_map escape_char s ++ dquote :: rest). split.
  - unfold encode_basestring. cbn [app]. by rewrite <- app_assoc.
  - apply scanstring_escaped.
Qed.

(** ** JSON values *)

Lemma skip_ws_indent n c r :
  is_ws c = false → skip_ws (newline_indent n ++ c :: r) = c :: r.
Proof.
  intros Hc. unfold newline_indent. cbn [app skip_ws].
  change (is_ws 10) with true. cbn iota.
  induction (2 * n)%nat as [|k IH]; cbn [repeat app skip_ws].
  - by rewrite Hc.
  - change (is_ws 32) with true. cbn iota. exact IH.
Qed.

Lemma skip_ws_head c r : is_ws c = false → skip_ws (c :: r) = c :: r.
Proof. intros Hc. cbn. by rewrite Hc. Qed.

Lemma scalar_start_plain c :
  scalar_start c → is_ws c = false ∧ c ≠ 123 ∧ c ≠ 91 ∧ c ≠ 125 ∧ c ≠ 93.
Proof.
  intros [->|[->|Hd]]; [done..|].
  unfold is_digit in Hd. apply andb_true_iff in Hd as [H1%N.leb_le H2%N.leb_le].
  unfold is_ws. split_and!; try lia.
  repeat (apply orb_false_iff; split); apply N.eqb_neq; lia.
Qed.

Lemma iterencode_scalar_head lvl v :
  scalar v → ∃ c r, iterencode lvl v = c :: r ∧ scalar_start c.
Proof.
  destruct v as [z|s| |]; try done; intros _.
  - destruct (int_str_head z) as (c & r & Heq & [Hd| ->]).
    + exists c, r. split; [done|]. by right; right.
    + exists 45, r. split; [done|]. by right; left.
  - eexists _, _. split; [reflexivity|by left].
Qed.

Lemma scan_once_scalar fuel lvl v rest :
  scalar v → number_ends rest →
  scan_once (S fuel) (iterencode lvl v ++ rest) = Some (v, rest).
Proof.
  destruct v as [z|s| |]; try done; intros _ Hrest.
  - cbn [iterencode].
    pose proof (scan_number_int_str z rest Hrest) as Hnum.
    destruct (int_str_head z) as (c & r & Heq & Hc).
    rewrite Heq in *. cbn [app scan_once] in *.
    assert (c =? dquote = false ∧ c =? 123 = false ∧ c =? 91 = false)
      as (-> & -> & ->).
    { assert (scalar_start c) as Hs by (destruct Hc as [?| ->]; [by right; right|by right; left]).
      destruct Hc as [Hd| ->]; [|done].
      unfold is_digit in Hd.
      apply andb_true_iff in Hd as [H1%N.leb_le H2%N.leb_le].
      split_and!; apply N.eqb_neq; unfold dquote; lia. }
    by rewrite Hnum.
  - cbn [iterencode].
    destruct (scanstring_basestring s rest) as (body & -> & Hscan).
    cbn [scan_once]. rewrite N.eqb_refl. by rewrite Hscan.
Qed.

Lemma join_cons2 sep (p q : str) rest :
  str_join sep (p :: q :: rest) = p ++ sep ++ str_join sep (q :: rest).
Proof. reflexivity. Qed.

Lemma member_head lvl kv : ∃ r, member lvl kv = dquote :: r.
Proof. by eexists. Qed.

Lemma members_head lvl sep kv ms :
  ∃ r, str_join sep (member lvl <$> (kv :: ms)) = dquote :: r.
Proof. destruct ms; by eexists. Qed.

Lemma JSONObject_members fuel lvl ms rest :
  ms ≠ [] → Forall (λ kv, scalar (snd kv)) ms → (length ms < fuel)%nat →
  JSONObject fuel
    (str_join (44 :: newline_indent (S lvl)) (member (S lvl) <$> ms)
     ++ newline_indent lvl ++ 125 :: rest)
  = Some (ms, rest).
Proof.
  intros Hne Hsc. revert fuel.
  induction Hsc as [|[k v] ms Hv Hsc IH]; [done|]. intros fuel Hfuel.
  destruct fuel as [|fuel]; [simpl in Hfuel; lia|].
  destruct (iterencode_scalar_head (S lvl) v Hv) as (c & r & Hhead & Hc).
  destruct (scalar_start_plain c Hc) as (Hws & _).
  destruct ms as [|kv2 ms].
  - cbn [fmap list_fmap str_join]. unfold member at 1. cbn [fst snd].
    rewrite <- !app_assoc.
    destruct (scanstring_basestring k
                ([58; 32] ++ iterencode (S lvl) v ++ newline_indent lvl
                 ++ 125 :: rest)) as (body & -> & Hscan).
    cbn [JSONObject]. rewrite N.eqb_refl, Hscan. cbn [mbind option_bind app].
    rewrite (skip_ws_head 58) by done. change (58 =? 58) with true. cbn iota.
    change (skip_ws (32 :: ?x)) with (skip_ws x).
    rewrite Hhead. cbn [app]. rewrite (skip_ws_head c) by done.
    change (c :: r ++ ?x) with ((c :: r) ++ x). rewrite <- Hhead.
    destruct fuel as [|fuel]; [simpl in Hfuel; lia|].
    rewrite scan_once_scalar; [|done|done]. cbn [mbind option_bind].
    rewrite skip_ws_indent by done. by rewrite N.eqb_refl.
  - rewrite fmap_cons, fmap_cons, join_cons2. rewrite <- fmap_cons.
    unfold member at 1. cbn [fst snd]. rewrite <- !app_assoc.
    destruct (members_head (S lvl) (44 :: newline_indent (S lvl)) kv2 ms)
      as (r2 & Hr2).
    destruct (scanstring_basestring k
                ([58; 32] ++ iterencode (S lvl) v
                 ++ (44 :: newline_indent (S lvl))
                 ++ str_join (44 :: newline_indent (S lvl))
                      (member (S lvl) <$> kv2 :: ms)
                 ++ newline_indent lvl ++ 125 :: rest))
      as (body & -> & Hscan).
    cbn [JSONObject]. rewrite N.eqb_refl, Hscan. cbn [mbind option_bind app].
    rewrite (skip_ws_head 58) by done. change (58 =? 58) with true. cbn iota.
    change (skip_ws (32 :: ?x)) with (skip_ws x).
    rewrite Hhead. cbn [app]. rewrite (skip_ws_head c) by done.
    change (c :: r ++ ?x) with ((c :: r) ++ x). rewrite <- Hhead.
    destruct fuel as [|fuel]; [simpl in Hfuel; lia|].
    rewrite scan_once_scalar; [|done|done]. cbn [mbind option_bind app].
    rewrite (skip_ws_head 44) by done.
    change (44 =? 125) with false. change (44 =? 44) with true. cbn iota.
    rewrite Hr2. cbn [app]. rewrite skip_ws_indent by done.
    change (dquote :: r2 ++ ?x) with ((dquote :: r2) ++ x). rewrite <- Hr2.
    rewrite IH; [done|done|simpl in *; lia].
Qed.

Lemma iterencode_dict lvl kv ms rest :
  iterencode lvl (JDict (kv :: ms)) ++ rest
  = 123 :: newline_indent (S lvl)
    ++ str_join (44 :: newline_indent (S lvl)) (member (S lvl) <$> kv :: ms)
    ++ newline_indent lvl ++ 125 :: rest.
Proof. cbn [iterencode]. by rewrite <- !app_assoc. Qed.

Lemma iterencode_list lvl v vs rest :
  iterencode lvl (JList (v :: vs)) ++ rest
  = 91 :: newline_indent (S lvl)
    ++ str_join (44 :: newline_indent (S lvl)) (iterencode (S lvl) <$> v :: vs)
    ++ newline_indent lvl ++ 93 :: rest.
Proof. cbn [iterencode]. by rewrite <- !app_assoc. Qed.

Lemma scan_once_object fuel lvl kv ms rest :
  Forall (λ kv, scalar (snd kv)) (kv :: ms) → (S (length (kv :: ms)) < fuel)%nat →
  scan_once fuel (iterencode lvl (JDict (kv :: ms)) ++ rest)
  = Some (JDict (kv :: ms), rest).
Proof.
  intros Hsc Hfuel. destruct fuel as [|fuel]; [lia|].
  rewrite iterencode_dict. cbn [scan_once].
  change (123 =? dquote) with false. change (123 =? 123) with true. cbn iota.
  destruct (members_head (S lvl) (44 :: newline_indent (S lvl)) kv ms)
    as (r & Hr).
  rewrite Hr. cbn [app]. rewrite skip_ws_indent by done.
  change (dquote =? 125) with false. cbn iota.
  change (dquote :: r ++ ?x) with ((dquote :: r) ++ x). rewrite <- Hr.
  rewrite JSONObject_members; [done|done|done|]. simpl in *. lia.
Qed.

Lemma entry_json_scalar e :
  ∃ kv ms, entry_json e = JDict (kv :: ms)
           ∧ Forall (λ kv, scalar (snd kv)) (kv :: ms) ∧ length ms = 2%nat.
Proof. eexists _, _. split; [reflexivity|]. by repeat constructor. Qed.

Lemma scan_once_entry fuel lvl e rest :
  (4 < fuel)%nat →
  scan_once fuel (iterencode lvl (entry_json e) ++ rest)
  = Some (entry_json e, rest).
Proof.
  intros Hfuel. destruct (entry_json_scalar e) as (kv & ms & -> & Hsc & Hlen).
  apply scan_once_object; [done|]. simpl. lia.
Qed.

Lemma entry_head lvl e : ∃ r, iterencode lvl (entry_json e) = 123 :: r.
Proof. by eexists. Qed.

Lemma entries_head lvl sep e es :
  ∃ r, str_join sep (iterencode lvl <$> (entry_json <$> e :: es)) = 123 :: r.
Proof. destruct es; by eexists. Qed.

Lemma JSONArray_entries fuel es rest :
  es ≠ [] → (length es + 4 < fuel)%nat →
  JSONArray fuel
    (str_join (44 :: newline_indent 1) (iterencode 1 <$> (entry_json <$> es))
     ++ newline_indent 0 ++ 93 :: rest)
  = Some (entry_json <$> es, rest).
Proof.
  intros Hne. revert fuel. induction es as [|e es IH]; [done|].
  intros fuel Hfuel. destruct fuel as [|fuel]; [lia|].
  destruct es as [|e2 es].
  - cbn [fmap list_fmap str_join JSONArray].
    rewrite scan_once_entry by (simpl in *; lia). cbn [mbind option_bind].
    rewrite skip_ws_indent by done. by rewrite N.eqb_refl.
  - rewrite !fmap_cons, join_cons2, <- !fmap_cons. rewrite <- !app_assoc.
    cbn [JSONArray].
    rewrite scan_once_entry by (simpl in *; lia).
    cbn [mbind option_bind app]. rewrite (skip_ws_head 44) by done.
    change (44 =? 93) with false. change (44 =? 44) with true. cbn iota.
    destruct (entries_head 1 (44 :: newline_indent 1) e2 es) as (r & Hr).
    rewrite Hr. cbn [app]. rewrite skip_ws_indent by done.
    change (123 :: r ++ ?x) with ((123 :: r) ++ x). rewrite <- Hr.
    rewrite IH; [done|done|simpl in *; lia].
Qed.

Lemma str_join_length (sep : str) (parts : list str) :
  (length parts ≤ S (length (str_join (44%N :: sep) parts)))%nat.
Proof.
  induction parts as [|p [|q parts] IH]; [simpl; lia..|].
  rewrite join_cons2, !length_app. simpl in *. lia.
Qed.

(** C9, JSON half: [json.loads] on the text written by [output_json]
    returns the list of the entries' objects, in order. *)
Lemma loads_output_json entries :
  loads (output_json entries) = Some (JList (entry_json <$> entries)).
Proof.
  destruct entries as [|e es]; [reflexivity|].
  unfold loads, output_json.
  change (map entry_json (e :: es)) with (entry_json e :: (entry_json <$> es)).
  set (text := iterencode 0 (JList _) ++ [10]).
  assert (text = 91 :: newline_indent 1
                 ++ str_join (44 :: newline_indent 1)
                      (iterencode 1 <$> (entry_json <$> e :: es))
                 ++ newline_indent 0 ++ 93 :: [10]) as Htext.
  { unfold text. by rewrite iterencode_list. }
  assert (length (e :: es) + 5 < 2 * length text + 2)%nat as Hfuel.
  { rewrite Htext. cbn [length]. rewrite !length_app.
    pose proof (str_join_length (newline_indent 1)
                  (iterencode 1 <$> (entry_json <$> e :: es))) as Hlen.
    rewrite !length_fmap in Hlen. simpl in *. lia. }
  destruct (2 * length text + 2)%nat as [|fuel]; [lia|].
  rewrite Htext. rewrite (skip_ws_head 91) by done. cbn [scan_once].
  change (91 =? dquote) with false. change (91 =? 123) with false.
  change (91 =? 91) with true. cbn iota.
  destruct (entries_head 1 (44 :: newline_indent 1) e es) as (r & Hr).
  rewrite Hr. cbn [app]. rewrite skip_ws_indent by done.
  change (123 =? 93) with false. cbn iota.
  change (123 :: r ++ ?x) with ((123 :: r) ++ x). rewrite <- Hr.
  rewrite JSONArray_entries; [done|done|]. simpl in *. lia.
Qed.

(** ** CSV *)

Lemma events_plain c rest :
  is_newline c = false → rest ≠ [] → events (c :: rest) = Ch c :: events rest.
Proof.
  intros Hc Hrest. cbn [events]. unfold line_ends.
  unfold is_newline in Hc. apply orb_false_iff in Hc as [-> ->].
  destruct rest; [done|]. done.
Qed.

Lemma events_crlf rest :
  events (13 :: 10 :: rest) = Ch 13 :: Ch 10 :: EOL :: events rest.
Proof. reflexivity. Qed.

Lemma read_char r c evs :
  read r (Ch c :: evs) = r' ← process_char r (Ch c); read r' evs.
Proof. cbn [read]. by destruct (process_char r (Ch c)). Qed.

Lemma dquote_plain : is_newline dquote = false.
Proof. reflexivity. Qed.

Lemma quoted_step buf fs c rest :
  c ≠ dquote → rest ≠ [] →
  read {| state := IN_QUOTED_FIELD; field := buf; fields := fs |}
       (events (c :: rest))
  = read {| state := IN_QUOTED_FIELD; field := buf ++ [c]; fields := fs |}
         (events rest).
Proof.
  intros Hc Hrest. cbn [events]. rewrite read_char.
  cbn [process_char state]. apply N.eqb_neq in Hc. rewrite Hc.
  cbn [mbind option_bind]. unfold add_char. cbn [field fields].
  by destruct (line_ends c rest).
Qed.

Lemma quoted_content buf fs f tail :
  tail ≠ [] →
  read {| state := IN_QUOTED_FIELD; field := buf; fields := fs |}
       (events (csv_body f ++ dquote :: tail))
  = read {| state := QUOTE_IN_QUOTED_FIELD; field := buf ++ f; fields := fs |}
         (events tail).
Proof.
  intros Htail. revert buf. induction f as [|c f IH]; intros buf.
  - cbn [csv_body flat_map app]. rewrite events_plain by done.
    rewrite read_char. cbn. by rewrite app_nil_r.
  - unfold csv_body. cbn [flat_map]. fold (csv_body f).
    rewrite <- app_assoc.
    assert (csv_body f ++ dquote :: tail ≠ []) as Hne by (by destruct (csv_body f)).
    destruct (N.eqb_spec c dquote) as [->|Hc].
    + cbn [app]. rewrite events_plain by done. rewrite read_char.
      cbn [process_char state]. rewrite N.eqb_refl. cbn [mbind option_bind].
      rewrite events_plain by done. rewrite read_char.
      unfold goto. cbn [process_char state]. rewrite N.eqb_refl.
      cbn [mbind option_bind]. unfold add_char. cbn [field fields].
      rewrite IH. by rewrite <- app_assoc.
    + cbn [app]. rewrite quoted_step by done. rewrite IH.
      by rewrite <- app_assoc.
Qed.

Lemma needs_quotes_false c :
  needs_quotes c = false → is_newline c = false ∧ c ≠ dquote ∧ c ≠ 44.
Proof.
  unfold needs_quotes, is_newline.
  rewrite !orb_false_iff, !N.eqb_neq. intros (((? & ?) & ?) & ?).
  split_and!; done.
Qed.

Lemma csv_body_plain f : existsb needs_quotes f = false → csv_body f = f.
Proof.
  induction f as [|c f IH]; [done|]. cbn [existsb].
  intros [Hc Hf]%orb_false_iff. unfold csv_body. cbn [flat_map].
  fold (csv_body f). rewrite IH by done.
  apply needs_quotes_false in Hc as (_ & Hq%N.eqb_neq & _). by rewrite Hq.
Qed.

Lemma unquoted_content buf fs f tail :
  existsb needs_quotes f = false → tail ≠ [] →
  read {| state := IN_FIELD; field := buf; fields := fs |} (events (f ++ tail))
  = read {| state := IN_FIELD; field := buf ++ f; fields := fs |} (events tail).
Proof.
  intros Hf Htail. revert buf. induction f as [|c f IH]; intros buf.
  - by rewrite app_nil_r.
  - cbn [existsb] in Hf. apply orb_false_iff in Hf as [Hc Hf].
    apply needs_quotes_false in Hc as (Hnl & Hq%N.eqb_neq & Hcomma%N.eqb_neq).
    cbn [app]. rewrite events_plain; [|done|by destruct f].
    rewrite read_char. cbn [process_char state]. rewrite Hnl, Hcomma.
    cbn [mbind option_bind]. unfold add_char. cbn [field fields].
    rewrite IH by done. by rewrite <- app_assoc.
Qed.

Lemma start_char r c :
  at_start r → is_newline c = false →
  process_char r (Ch c) = start_field r (Ch c).
Proof.
  intros [[Hst|Hst] _] Hc; unfold process_char; rewrite Hst; [|done].
  by rewrite Hc.
Qed.

Lemma field_content r f tail :
  at_start r → tail ≠ [] →
  ∃ r', read r (events (csv_field f ++ tail)) = read r' (events tail)
        ∧ after_field r r' f.
Proof.
  intros Hr Htail. pose proof Hr as [Hst Hbuf]. unfold csv_field.
  destruct (existsb needs_quotes f) eqn:Hq.
  - eexists. split.
    + cbn [app]. rewrite <- app_assoc. cbn [app].
      rewrite events_plain; [|done|by destruct (csv_body f)].
      rewrite read_char, start_char by done.
      cbn [start_field]. change (is_newline dquote) with false.
      rewrite N.eqb_refl. cbn [mbind option_bind]. unfold goto.
      rewrite Hbuf. by rewrite quoted_content.
    + split_and!; [done|done|by right; left].
  - rewrite csv_body_plain by done. destruct f as [|c f].
    + exists r. split; [done|]. split_and!; [done|done|by right; right].
    + cbn [existsb] in Hq. apply orb_false_iff in Hq as [Hc Hf].
      apply needs_quotes_false in Hc as (Hnl & Hdq%N.eqb_neq & Hcomma%N.eqb_neq).
      eexists. split.
      * cbn [app]. rewrite events_plain; [|done|by destruct f].
        rewrite read_char, start_char by done.
        cbn [start_field]. rewrite Hnl, Hdq, Hcomma.
        cbn [mbind option_bind]. unfold add_char. rewrite Hbuf.
        by rewrite unquoted_content.
      * split_and!; [done|done|by left].
Qed.

Lemma comma_after_field r0 r f tail :
  at_start r0 → after_field r0 r f → tail ≠ [] →
  read r (events (44 :: tail))
  = read {| state := START_FIELD; field := []; fields := fields r0 ++ [f] |}
         (events tail).
Proof.
  intros [Hst0 _] (Hf & Hfs & Hst) Htail.
  rewrite events_plain by done. rewrite read_char.
  assert (process_char r (Ch 44) = Some (save_field r START_FIELD)) as ->.
  { unfold process_char.
    destruct Hst as [->|[->|[_ ->]]]; [done|done|].
    by destruct Hst0 as [->| ->]. }
  cbn [mbind option_bind]. unfold save_field. by rewrite Hf, Hfs.
Qed.

Lemma crlf_after_field r0 r f rest :
  state r0 = START_FIELD → after_field r0 r f →
  read r (events (13 :: 10 :: rest))
  = cons (fields r0 ++ [f]) <$> read reset (events rest).
Proof.
  intros Hst0 (Hf & Hfs & Hst). rewrite events_crlf, read_char.
  assert (process_char r (Ch 13) = Some (save_field r EAT_CRNL)) as ->.
  { unfold process_char.
    destruct Hst as [->|[->|[_ ->]]]; [done|done|]. by rewrite Hst0. }
  cbn [mbind option_bind]. rewrite read_char. cbn.
  by rewrite Hf, Hfs.
Qed.

(** A row of three fields is read back as these three fields. *)
Lemma read_row a b c rest :
  read reset (events (writerow [a; b; c] ++ rest))
  = cons [a; b; c] <$> read reset (events rest).
Proof.
  unfold writerow. cbn [map str_join]. rewrite <- !app_assoc. cbn [app].
  destruct (field_content reset a
              (44 :: csv_field b ++ 44 :: csv_field c ++ 13 :: 10 :: rest))
    as (r1 & -> & H1); [by split; [left|]|done|].
  rewrite (comma_after_field reset r1 a); [|by split; [left|]|done|].
  2:{ by destruct (csv_field b). }
  set (s1 := {| state := START_FIELD; field := []; fields := fields reset ++ [a] |}).
  destruct (field_content s1 b (44 :: csv_field c ++ 13 :: 10 :: rest))
    as (r2 & -> & H2); [by split; [right|]|done|].
  rewrite (comma_after_field s1 r2 b); [|by split; [right|]|done|].
  2:{ by destruct (csv_field c). }
  set (s2 := {| state := START_FIELD; field := []; fields := fields s1 ++ [b] |}).
  destruct (field_content s2 c (13 :: 10 :: rest))
    as (r3 & -> & H3); [by split; [right|]|done|].
  by rewrite (crlf_after_field s2 r3 c).
Qed.

(** C9, CSV half: [csv.reader] on the text written by [output_csv] returns
    the header row and then one row per entry, in order. *)
Lemma csv_reader_output_csv entries :
  csv_reader (output_csv entries)
  = Some ([U "rank"; U "app_id"; U "title"] :: (entry_row <$> entries)).
Proof.
  unfold csv_reader, output_csv. rewrite read_row.
  enough (read reset (events (flat_map
            (λ entry, writerow [int_str (rank entry); app_id entry; title entry])
            entries)) = Some (entry_row <$> entries)) as -> by done.
  induction entries as [|e es IH]; [reflexivity|].
  cbn [flat_map]. rewrite read_row, IH. done.
Qed.

(** ** The tuples read back *)

Lemma json_tuple_entry e : json_tuple (entry_json e) = Some (entry_tuple e).
Proof. reflexivity. Qed.

Lemma row_tuple_entry e : row_tuple (entry_row e) = Some (entry_tuple e).
Proof.
  unfold row_tuple, entry_row.
  pose proof (scan_number_int_str (rank e) []) as H.
  rewrite app_nil_r in H. by rewrite H.
Qed.

Lemma mapM_fmap_Some {A B C} (f : B → option C) (g : A → B) (h : A → C) l :
  (∀ x, f (g x) = Some (h x)) → mapM f (g <$> l) = Some (h <$> l).
Proof.
  intros H. induction l as [|x l IH]; [done|].
  rewrite !fmap_cons. cbn [mapM]. by rewrite H, IH.
Qed.

(** C9. Whatever the entries: parsing the JSON text gives one object per
    entry, in order, with the entry's rank, identifier and title; reading
    the CSV text gives the header row and then one row per entry, in
    order, with the same three values (the rank in decimal). *)
Theorem output_round_trip entries :
  loads (output_json entries) = Some (JList (entry_json <$> entries))
  ∧ loads (output_json entries) ≫= json_tuples
    = Some (entry_tuple <$> entries)
  ∧ csv_reader (output_csv entries)
    = Some ([U "rank"; U "app_id"; U "title"] :: (entry_row <$> entries))
  ∧ (csv_reader (output_csv entries) ≫= λ rows, mapM row_tuple (tail rows))
    = Some (entry_tuple <$> entries).
Proof.
  rewrite loads_output_json, csv_reader_output_csv. cbn [mbind option_bind tail].
  split_and!; [done| |done|].
  - cbn [json_tuples]. apply mapM_fmap_Some, json_tuple_entry.
  - apply mapM_fmap_Some, row_tuple_entry.
Qed.

End RoundTrip.

(** * The exit status *)

Module MainSpec.
Import Spec.
Import Url Output ExtractSpec.

(** C3. With [--limit 0] on a page from which two entries are extracted,
    the run writes the header row alone, prints the diagnostic and exits
    with status 1, although the extraction did not come back empty. *)
Theorem main_limit_zero :
  extract_apps Some sample_page
  = Some [ {| rank := 1; app_id := U "com.app.one"; title := U "One Game" |};
           {| rank := 2; app_id := U "com.app.two"; title := [] |} ]
  ∧ main Some (λ _, Some sample_page) limit_zero
    = Some {| stdout := U "rank,app_id,title" ++ [13; 10];
              stderr := NO_ENTRIES;
              status := 1 |}.
Proof. split; vm_compute; reflexivity. Qed.

(** The empty-result scenario: a page without matching anchors gives the
    header row alone (or an empty JSON array), the diagnostic and status 1. *)
Example main_no_anchor_csv :
  main Some (λ _, Some (U "<html><body><p>maintenance</p></body></html>"))
       {| hl := U "ko"; gl := U "KR"; category := None; limit := 50;
          json_flag := false |}
  = Some {| stdout := U "rank,app_id,title" ++ [13; 10];
            stderr := NO_ENTRIES; status := 1 |}.
Proof. vm_compute. reflexivity. Qed.

Example main_no_anchor_json :
  main Some (λ _, Some (U "<html><body><p>maintenance</p></body></html>"))
       {| hl := U "ko"; gl := U "KR"; category := None; limit := 50;
          json_flag := true |}
  = Some {| stdout := U "[]" ++ [10]; stderr := NO_ENTRIES; status := 1 |}.
Proof. vm_compute. reflexivity. Qed.

Example main_sample_page :
  main Some (λ _, Some sample_page)
       {| hl := U "ko"; gl := U "KR"; category := None; limit := 1;
          json_flag := false |}
  = Some {| stdout := U "rank,app_id,title" ++ [13; 10]
                      ++ U "1,com.app.one,One Game" ++ [13; 10];
            stderr := []; status := 0 |}.
Proof. vm_compute. reflexivity. Qed.

Section Status.

Variable unescape : str → option str.
Variable fetch_html : str → option str.

(** What the status of a run does report: whether the trimmed list that
    was written is empty.  The output is written in the requested format
    in both cases, and the diagnostic goes with status 1. *)
Lemma main_status args run :
  main unescape fetch_html args = Some run →
  ∃ url html found,
    build_url (hl args) (gl args) (category args) = Some url
    ∧ fetch_html url = Some html
    ∧ extract_apps unescape html = Some found
    ∧ let entries := trim_entries found (Some (limit args)) in
      stdout run = (if json_flag args then output_json entries
                    else output_csv entries)
      ∧ (status run = 0%Z ↔ entries ≠ [])
      ∧ (status run = 1%Z ↔ entries = [])
      ∧ (entries = [] → stderr run = NO_ENTRIES)
      ∧ (entries ≠ [] → stderr run = []).
Proof.
  unfold main.
  destruct (build_url _ _ _) as [url|] eqn:Hurl;
    cbn [mbind option_bind]; [|done].
  destruct (fetch_html url) as [html|] eqn:Hfetch;
    cbn [mbind option_bind]; [|done].
  destruct (extract_apps unescape html) as [found|] eqn:Hfound;
    cbn [mbind option_bind]; [|done].
  destruct (trim_entries found (Some (limit args))) as [|e es] eqn:Htrim;
    intros [= <-]; exists url, html, found; rewrite Htrim;
    cbn [stdout stderr status]; split_and!; done.
Qed.


End Status.

End MainSpec.

(** * The shape of a match *)

Module Shape.
Import Spec.
Import SreFacts Patterns Loop.

(** The greedy repeats of the tail stop where they must: the identifier
    runs up to the first ampersand or double quote, and the match up to the
    next [<] or the end of the text. *)
Lemma app_link_tail_maximal s mk mk' rest :
  run true app_link_tail s mk = Some (mk', rest) →
  ∃ tok q c t,
    s = tok ++ q ++ dquote :: c ++ gt_sign :: t ++ rest
    ∧ tok ≠ [] ∧ free_of [amp; dquote] tok
    ∧ free_of [dquote] q ∧ blocked [amp; dquote] (q ++ [dquote])
    ∧ free_of [gt_sign] c ∧ free_of [lt_sign] t ∧ blocked [lt_sign] rest
    ∧ mk' = tail_marks s (q ++ dquote :: c ++ gt_sign :: t ++ rest).
Proof.
  intros Hrun.
  destruct (app_link_tail_inv _ _ _ _ Hrun)
    as (tok & q & c & t & Hs & Htok & Hf1 & Hf2 & Hf3 & Hf4 & Hmk).
  destruct (split_at_blocked [amp; dquote] q) as (u & v & Hq & Hu & Hv).
  destruct (split_at_blocked [lt_sign] rest) as (t' & rest' & Hrest & Ht' & Hrest').
  assert (free_of [dquote] v) as Hfv.
  { rewrite Hq in Hf2. by apply free_of_app in Hf2 as [_ ?]. }
  assert (blocked [amp; dquote] (v ++ [dquote])) as Hbv.
  { destruct v; [by apply blocked_cons; set_solver|done]. }
  assert (s = (tok ++ u) ++ v ++ dquote :: c ++ gt_sign :: (t ++ t') ++ rest')
    as Hs'.
  { rewrite Hs, Hq, Hrest. by rewrite <- !app_assoc. }
  assert (tok ++ u ≠ []) as Hne by (by destruct tok, u).
  assert (free_of [amp; dquote] (tok ++ u)) as Hfu by (by apply free_of_app).
  assert (free_of [lt_sign] (t ++ t')) as Hft by (by apply free_of_app).
  pose proof (app_link_tail_run (tok ++ u) v c (t ++ t') rest' mk
                Hne Hfu Hfv Hbv Hf3 Hft Hrest') as Hfw.
  rewrite <- Hs', Hrun in Hfw.
  injection Hfw as Hmk' Hr.
  assert (t' = []) as ->.
  { apply (app_inv_tail rest'). by rewrite <- Hrest, Hr. }
  rewrite app_nil_r in Hmk'. cbn [app] in Hrest. subst rest'.
  rewrite Hmk in Hmk'. injection Hmk' as Hqv.
  apply app_inv_tail in Hqv. subst v.
  exists tok, q, c, t. split_and!; done.
Qed.

Lemma app_link_match_shape s m :
  match_at APP_LINK_RE s = Some m →
  ∃ o b h tok q c t,
    s = o ++ b ++ h ++ tok ++ q ++ dquote :: c ++ gt_sign :: t ++ m_end m
    ∧ ci (U "<a") o ∧ b ≠ [] ∧ free_of [gt_sign] b ∧ ci HREF_PREFIX h
    ∧ tok ≠ [] ∧ free_of [amp; dquote] tok
    ∧ free_of [dquote] q ∧ blocked [amp; dquote] (q ++ [dquote])
    ∧ free_of [gt_sign] c ∧ free_of [lt_sign] t ∧ blocked [lt_sign] (m_end m)
    ∧ m_start m = s
    ∧ token m = tok
    ∧ whole m = o ++ b ++ h ++ tok ++ q ++ dquote :: c ++ gt_sign :: t.
Proof.
  unfold match_at. rewrite app_link_code.
  change (ignorecase APP_LINK_RE) with true.
  rewrite run_literals.
  destruct (prefix_ok true (U "<a") s) eqn:Ho; [|by cbn].
  destruct (prefix_ok_split _ _ _ Ho) as (Hs & Hlen & Ho').
  cbn [run].
  destruct (max_repeat _ _ _ _) as [[mk rest]|] eqn:Hrun; [|done].
  intros [= <-]. unfold token, whole. cbn [m_start m_end m_marks group].
  apply max_repeat_Some in Hrun as (b & s1 & Hs1 & Hb & Hfree & Hrun).
  rewrite run_literals in Hrun.
  destruct (prefix_ok true HREF_PREFIX s1) eqn:Hh; [|done].
  destruct (prefix_ok_split _ _ _ Hh) as (Hs1' & Hlen' & Hh').
  apply app_link_tail_maximal in Hrun
    as (tok & q & c & t & Hs2 & Htok & Hf1 & Hf2 & Hb2 & Hf3 & Hf4 & Hb4 & ->).
  exists (take (length (U "<a")) s), b, (take (length HREF_PREFIX) s1),
    tok, q, c, t.
  assert (s = take (length (U "<a")) s ++ b ++ take (length HREF_PREFIX) s1
              ++ tok ++ q ++ dquote :: c ++ gt_sign :: t ++ rest) as Heq.
  { rewrite <- Hs2. rewrite Hs at 1. f_equal. rewrite Hs1. f_equal. done. }
  split_and!; try done.
  - intros ->. simpl in Hb. lia.
  - cbn [default tail_marks mark_open mark_close]. rewrite Hs2 at 1.
    by rewrite span_app.
  - rewrite Heq at 1.
    replace (take (length (U "<a")) s ++ b ++ take (length HREF_PREFIX) s1
             ++ tok ++ q ++ dquote :: c ++ gt_sign :: t ++ rest)
      with ((take (length (U "<a")) s ++ b ++ take (length HREF_PREFIX) s1
             ++ tok ++ q ++ dquote :: c ++ gt_sign :: t) ++ rest).
    + by rewrite span_app.
    + by repeat (rewrite <- ?app_assoc; cbn [app]).
Qed.

End Shape.

(** * More about the extraction *)

Module ExtractMore.
Import Spec.
Import SreFacts Patterns StripFacts Loop Shape.

Lemma search_nowhere p s :
  (∀ j, match_at p (drop j s) = None) → search p s = None.
Proof.
  induction s as [|x s IH]; intros H; cbn [search];
    pose proof (H 0%nat) as H0; cbn [drop] in H0; rewrite H0; [done|].
  apply IH. intros j. apply (H (S j)).
Qed.

Lemma kept_head m ms : kept ∅ (m :: ms) = m :: kept {[ token m ]} ms.
Proof.
  cbn [kept]. rewrite decide_False by set_solver.
  f_equal. f_equal. set_solver.
Qed.

(** No match is kept exactly when the pattern matches nowhere. *)
Lemma kept_nil_iff html :
  kept ∅ (finditer APP_LINK_RE html) = [] ↔ search APP_LINK_RE html = None.
Proof.
  rewrite finditer_unfold.
  destruct (search APP_LINK_RE html) as [m|]; [|done].
  by rewrite kept_head.
Qed.

Section WithUnescape.

Variable unescape : str → option str.

(** Every entry is made from a match of the anchor pattern that starts
    somewhere in the page. *)
Lemma entry_match html es e :
  extract_apps unescape html = Some es → e ∈ es →
  ∃ i m pre,
    e = entry_of (returned unescape) i m
    ∧ match_at APP_LINK_RE (m_start m) = Some m
    ∧ html = pre ++ m_start m.
Proof.
  intros (_ & ->)%extract_apps_Some (i & Hi)%list_elem_of_lookup_1.
  apply imap_entry_lookup in Hi as (m & Hm & ->).
  destruct (kept_lookup _ _ _ _ Hm) as (_ & j & Hj & _).
  pose proof (finditer_matches APP_LINK_RE html) as Hall.
  pose proof (finditer_starts APP_LINK_RE html) as Hst.
  rewrite Forall_lookup in Hall, Hst.
  destruct (Hst _ _ Hj) as [pre Hpre].
  exists i, m, pre. split_and!; [done|by eapply Hall|done].
Qed.

(** X1. Every identifier that [extract_apps] returns is read off an anchor
    of the page: the page holds, in this order, [<a] in any letter case, at
    least one character other than [>], the [href] prefix in any letter
    case, the identifier, the rest of the attribute value, the closing
    quote, and further on the [>] that closes the tag.  The identifier has
    no ampersand and no double quote, and it ends at the first of these
    two characters: what follows it inside the quotes is empty or starts
    with an ampersand. *)
Theorem extract_apps_sound html es e :
  extract_apps unescape html = Some es → e ∈ es →
  ∃ pre o b h q c post,
    html = pre ++ o ++ b ++ h ++ app_id e ++ q
           ++ dquote :: c ++ gt_sign :: post
    ∧ ci (U "<a") o ∧ b ≠ [] ∧ gt_sign ∉ b ∧ ci HREF_PREFIX h
    ∧ app_id e ≠ [] ∧ amp ∉ app_id e ∧ dquote ∉ app_id e
    ∧ dquote ∉ q ∧ (q = [] ∨ head q = Some amp)
    ∧ gt_sign ∉ c.
Proof.
  intros Hes He.
  destruct (entry_match _ _ _ Hes He) as (i & m & pre & -> & Hm & Hpre).
  apply app_link_match_shape in Hm
    as (o & b & h & tok & q & c & t & Hs & Ho & Hb & Hfb & Hh & Htok & Hft
        & Hfq & Hbq & Hfc & _ & _ & _ & Htk & _).
  cbn [app_id entry_of]. rewrite Htk.
  apply free_of_2 in Hft as [? ?].
  apply free_of_1 in Hfb, Hfq, Hfc.
  exists pre, o, b, h, q, c, (t ++ m_end m).
  split_and!; try done.
  - by rewrite Hpre, Hs.
  - destruct q as [|x q]; [by left|right].
    cbn in Hbq. apply in_set_true in Hbq.
    apply elem_of_cons in Hbq as [->|Hx]; [done|].
    apply list_elem_of_singleton in Hx as ->. set_solver.
Qed.

(** X2. The title of an entry never starts and never ends with a white
    space character, whatever [unescape] returns. *)
Theorem extract_apps_title_stripped html es e c :
  extract_apps unescape html = Some es → e ∈ es →
  head (title e) = Some c ∨ last (title e) = Some c →
  isspace c = false.
Proof.
  intros Hes He.
  destruct (entry_match _ _ _ Hes He) as (i & m & pre & -> & _ & _).
  cbn [title entry_of]. unfold title_of.
  destruct (search ARIA_LABEL_RE (whole m)) as [lm|]; [|by intros [|]].
  destruct (strip_spec (returned unescape (default [] (group lm 1))))
    as (l & r & _ & _ & _ & Hhd & Hlast).
  intros [Hc|Hc].
  - destruct (strip _); [done|]. by injection Hc as <-.
  - apply last_Some in Hc as [t' Ht']. rewrite Ht', rev_unit in Hlast. done.
Qed.


(** X3. [extract_apps] returns the empty list exactly when the anchor
    pattern matches nowhere in the page. *)
Theorem extract_apps_nil_iff html :
  extract_apps unescape html = Some [] ↔ search APP_LINK_RE html = None.
Proof.
  rewrite extract_apps_Some, <- kept_nil_iff. unfold labels_ok. split.
  - intros [_ Hnil]. by destruct (kept ∅ (finditer APP_LINK_RE html)).
  - intros ->. split; [constructor|done].
Qed.

(** X4. A page in which the [href] prefix of a details link does not occur,
    in any letter case, gives no entry. *)
Theorem extract_apps_no_href html :
  occurs true HREF_PREFIX html = false →
  extract_apps unescape html = Some [].
Proof.
  intros Hocc.
  assert (search APP_LINK_RE html = None) as Hnone.
  { apply search_nowhere. intros j.
    destruct (match_at APP_LINK_RE (drop j html)) as [m|] eqn:Hm; [|done].
    apply app_link_match_shape in Hm
      as (o & b & h & tok & q & c & t & Hs & _ & _ & _ & Hh & _).
    pose proof (occurs_false_drop _ _ _ (j + length (o ++ b)) Hocc) as Hp.
    rewrite <- drop_drop, Hs in Hp.
    rewrite (app_assoc o b), drop_app_length in Hp.
    by rewrite (ci_prefix _ _ _ Hh) in Hp. }
  apply extract_apps_Some. unfold labels_ok.
  rewrite finditer_unfold, Hnone. by split.
Qed.

End WithUnescape.

End ExtractMore.

(** * Trimming an extraction *)

Module TrimMore.
Import Spec.
Import SreFacts Patterns Loop ExtractMore.

Lemma trim_entries_take (es : list AppEntry) limit :
  ∃ k, trim_entries es limit = take k es.
Proof.
  destruct limit as [n|]; cbn [trim_entries].
  - unfold slice_to. destruct (n <? 0)%Z; by eexists.
  - exists (length es). by rewrite take_ge.
Qed.

Lemma take_seqZ k a n :
  take k (seqZ a (Z.of_nat n)) = seqZ a (Z.of_nat (k `min` n)).
Proof.
  apply list_eq. intros i.
  destruct (decide (i < k `min` n)%nat).
  - rewrite lookup_take_lt, !lookup_seqZ_lt by lia. done.
  - rewrite (lookup_seqZ_ge _ (Z.of_nat (k `min` n))) by lia.
    destruct (decide (i < k)%nat).
    + rewrite lookup_take_lt by lia. apply lookup_seqZ_ge. lia.
    + apply lookup_take_ge. lia.
Qed.

Section WithUnescape.

Variable unescape : str → option str.

(** What [extract_apps] guarantees about a list that it returns. *)
Lemma found_invariant html es :
  extract_apps unescape html = Some es →
  rank <$> es = seqZ 1 (Z.of_nat (length es))
  ∧ Forall (λ e, app_id e ≠ []) es
  ∧ NoDup (app_id <$> es).
Proof.
  intros (_ & ->)%extract_apps_Some.
  change (imap (entry_of (returned unescape)))
    with (imap (λ i, entry_of (returned unescape) (0 + i))).
  rewrite imap_entry_ids, imap_entry_rank, length_imap.
  split_and!; [done| |apply kept_NoDup].
  apply Forall_forall. intros e (i & Hi)%list_elem_of_lookup_1.
  apply imap_entry_lookup in Hi as (m & Hm & ->). cbn.
  destruct (kept_lookup _ _ _ _ Hm) as (_ & j & Hj & _).
  pose proof (finditer_matches APP_LINK_RE html) as Hall.
  rewrite Forall_lookup in Hall.
  by destruct (app_link_group m (Hall _ _ Hj)) as (_ & ? & _).
Qed.

(** X5. Trimming keeps what the extraction guarantees.  Whatever the limit
    (none, positive, zero or negative), the list that [main] goes on to
    write is a prefix of the extracted list, its ranks are 1, 2, 3, ...
    without gaps, and its identifiers are non-empty and pairwise
    distinct. *)
Theorem trimmed_extraction_invariant html found limit :
  extract_apps unescape html = Some found →
  trim_entries found limit `prefix_of` found
  ∧ rank <$> trim_entries found limit
    = seqZ 1 (Z.of_nat (length (trim_entries found limit)))
  ∧ Forall (λ e, app_id e ≠ []) (trim_entries found limit)
  ∧ NoDup (app_id <$> trim_entries found limit).
Proof.
  intros (Hrank & Hids & Hnd)%found_invariant.
  destruct (trim_entries_take found limit) as [k ->].
  split_and!.
  - apply prefix_take.
  - rewrite fmap_take, Hrank, take_seqZ, length_take. done.
  - by apply Forall_take.
  - rewrite fmap_take. eapply sublist_NoDup; [exact Hnd|apply sublist_take].
Qed.

End WithUnescape.

End TrimMore.

(** * More about [build_url] *)

Module UrlMore.
Import Url Readers Spec.
Import SreFacts ExtractSpec UrlSpec RoundTrip.

Lemma utf8_char_inv c bs :
  utf8_char c = Some bs → c < 1114112 ∧ ¬ (55296 ≤ c ≤ 57343).
Proof.
  unfold utf8_char.
  destruct (N.ltb_spec c 128); [lia|].
  destruct (N.ltb_spec c 2048); [lia|].
  destruct (N.ltb_spec c 65536).
  { destruct (N.leb_spec 55296 c), (N.leb_spec c 57343); cbn [andb];
      [done|lia..]. }
  destruct (N.ltb_spec c 1114112); [lia|done].
Qed.

Lemma utf8_encode_inv s bs : utf8_encode s = Some bs → encodable s.
Proof.
  revert bs. induction s as [|c s IH]; intros bs; [constructor|].
  cbn [utf8_encode].
  destruct (utf8_char c) as [b1|] eqn:Hc; cbn [mbind option_bind]; [|done].
  destruct (utf8_encode s) as [b2|]; cbn [mbind option_bind]; [|done].
  intros _. constructor; [by eapply utf8_char_inv|by eapply IH].
Qed.

Lemma quote_plus_inv s q : quote_plus s = Some q → encodable s.
Proof.
  unfold quote_plus, quote.
  destruct (utf8_encode s) as [bs|] eqn:Hbs;
    [intros _; by eapply utf8_encode_inv|].
  by destruct (in_set 32 s).
Qed.

(** The URL in terms of the quoted values. *)
Lemma build_url_eq l r c :
  build_url l r c
  = ql ← quote_plus l; qr ← quote_plus r;
    match effective c with
    | Some x =>
        qc ← quote_plus x;
        Some (BASE_URL ++ U "?hl=" ++ ql ++ U "&gl=" ++ qr
              ++ U "&category=" ++ qc)
    | None => Some (BASE_URL ++ U "?hl=" ++ ql ++ U "&gl=" ++ qr)
    end.
Proof.
  unfold build_url, urlencode.
  destruct c as [[|x c]|]; cbn [effective mapM fst snd app];
    change (quote_plus (U "hl")) with (Some (U "hl"));
    change (quote_plus (U "gl")) with (Some (U "gl"));
    change (quote_plus (U "category")) with (Some (U "category"));
    destruct (quote_plus l) as [ql|]; cbn [mbind option_bind]; try done;
    destruct (quote_plus r) as [qr|]; cbn [mbind option_bind]; try done;
    try (destruct (quote_plus (x :: c)) as [qc|];
         cbn [mbind option_bind]; [|done]);
    cbn [mret option_ret str_join];
    by repeat (rewrite <- ?app_assoc; cbn [app U ord_string]).
Qed.

(** X6. [build_url] raises exactly when one of the values it encodes
    cannot be encoded as UTF-8, that is, holds a lone surrogate (or a number
    that is no code point). *)
Theorem build_url_defined l r c :
  is_Some (build_url l r c)
  ↔ encodable l ∧ encodable r ∧ ∀ x, c = Some x → encodable x.
Proof.
  rewrite build_url_eq. split.
  - intros [u Hu].
    destruct (quote_plus l) as [ql|] eqn:Hl; cbn [mbind option_bind] in Hu;
      [|done].
    destruct (quote_plus r) as [qr|] eqn:Hr; cbn [mbind option_bind] in Hu;
      [|done].
    split_and!; [by eapply quote_plus_inv|by eapply quote_plus_inv|].
    intros x ->. destruct x as [|y x]; [constructor|].
    cbn [effective] in Hu.
    destruct (quote_plus (y :: x)) as [qc|] eqn:Hc; [|done].
    by eapply quote_plus_inv.
  - intros (Hl & Hr & Hc).
    destruct (quote_plus_Some _ Hl) as (ql & -> & _).
    destruct (quote_plus_Some _ Hr) as (qr & -> & _).
    cbn [mbind option_bind].
    destruct c as [[|y x]|]; cbn [effective]; [done| |done].
    destruct (quote_plus_Some (y :: x) (Hc _ eq_refl)) as (qc & -> & _).
    done.
Qed.

Lemma unreserved_utf8 s : unreserved s → utf8_encode s = Some s.
Proof.
  induction 1 as [|c s Hc _ IH]; [done|].
  cbn [utf8_encode]. rewrite IH.
  assert (c < 128) as Hlt.
  { unfold always_safe in Hc.
    repeat (apply orb_true_iff in Hc as [Hc|Hc]);
      rewrite ?andb_true_iff, ?N.leb_le, ?N.eqb_eq in Hc; lia. }
  unfold utf8_char. apply N.ltb_lt in Hlt. by rewrite Hlt.
Qed.

Lemma quote_plus_unreserved s : unreserved s → quote_plus s = Some s.
Proof.
  intros Hs. unfold quote_plus, quote. rewrite (unreserved_utf8 _ Hs).
  cbn [mbind option_bind].
  assert (in_set 32 s = false) as ->.
  { apply in_set_false. intros Hin.
    unfold unreserved in Hs. rewrite Forall_forall in Hs.
    by specialize (Hs _ Hin). }
  f_equal. induction Hs as [|c s Hc _ IH]; [done|].
  cbn [flat_map]. unfold quoter at 1. by rewrite Hc, IH.
Qed.

(** X7. Values made only of letters, digits and the characters [_.-~]
    (language and region codes, category names) go into the URL
    unchanged. *)
Theorem build_url_unreserved l r c :
  unreserved l → unreserved r → (∀ x, c = Some x → unreserved x) →
  build_url l r c
  = Some (BASE_URL ++ U "?hl=" ++ l ++ U "&gl=" ++ r
          ++ match effective c with
             | Some x => U "&category=" ++ x
             | None => []
             end).
Proof.
  intros Hl Hr Hc. rewrite build_url_eq.
  rewrite (quote_plus_unreserved _ Hl), (quote_plus_unreserved _ Hr).
  cbn [mbind option_bind].
  destruct c as [[|y x]|]; cbn [effective]; rewrite ?app_nil_r; [done| |done].
  by rewrite (quote_plus_unreserved _ (Hc _ eq_refl)).
Qed.

(** ** Nothing is lost in the encoding *)

Lemma utf8_decode_char c bs rest :
  utf8_char c = Some bs → utf8_decode (bs ++ rest) = c :: utf8_decode rest.
Proof.
  unfold utf8_char.
  pose proof (N.Div0.div_mod c 64) as H1.
  pose proof (N.mod_lt c 64) as M1.
  pose proof (N.Div0.div_mod (c / 64) 64) as H2.
  pose proof (N.mod_lt (c / 64) 64) as M2.
  pose proof (N.Div0.div_mod (c / 4096) 64) as H3.
  pose proof (N.mod_lt (c / 4096) 64) as M3.
  pose proof (N.Div0.div_div c 64 64) as D1. change (64 * 64) with 4096 in D1.
  pose proof (N.Div0.div_div c 4096 64) as D2.
  change (4096 * 64) with 262144 in D2.
  rewrite D1 in H2. rewrite D2 in H3. clear D1 D2.
  set (r1 := c mod 64) in *. set (r2 := (c / 64) mod 64) in *.
  set (r3 := (c / 4096) mod 64) in *. set (q1 := c / 64) in *.
  set (q2 := c / 4096) in *. set (q3 := c / 262144) in *.
  clearbody r1 r2 r3 q1 q2 q3.
  destruct (N.ltb_spec c 128) as [L1|L1].
  { intros [= <-]. cbn [app utf8_decode].
    apply N.ltb_lt in L1. by rewrite L1. }
  destruct (N.ltb_spec c 2048) as [L2|L2].
  { intros [= <-]. cbn [app utf8_decode].
    destruct (N.ltb_spec (192 + q1) 128); [lia|].
    destruct (N.ltb_spec (192 + q1) 224); [|lia].
    f_equal. lia. }
  destruct (N.ltb_spec c 65536) as [L3|L3].
  { destruct ((55296 <=? c) && (c <=? 57343)); [done|].
    intros [= <-]. cbn [app utf8_decode].
    destruct (N.ltb_spec (224 + q2) 128); [lia|].
    destruct (N.ltb_spec (224 + q2) 224); [lia|].
    destruct (N.ltb_spec (224 + q2) 240); [|lia].
    f_equal. lia. }
  destruct (N.ltb_spec c 1114112) as [L4|L4]; [|done].
  intros [= <-]. cbn [app utf8_decode].
  destruct (N.ltb_spec (240 + q3) 128); [lia|].
  destruct (N.ltb_spec (240 + q3) 224); [lia|].
  destruct (N.ltb_spec (240 + q3) 240); [lia|].
  f_equal. lia.
Qed.

Lemma utf8_decode_encode s bs : utf8_encode s = Some bs → utf8_decode bs = s.
Proof.
  revert bs. induction s as [|c s IH]; intros bs; cbn [utf8_encode].
  - by intros [= <-].
  - destruct (utf8_char c) as [b1|] eqn:Hc; cbn [mbind option_bind]; [|done].
    destruct (utf8_encode s) as [b2|]; cbn [mbind option_bind]; [|done].
    intros [= <-]. rewrite (utf8_decode_char _ _ _ Hc). f_equal. by apply IH.
Qed.

Lemma hex_val_upper n : n < 16 → hex_val (hex_upper n) = Some n.
Proof.
  intros Hn. assert (n < 32) as H32 by lia. revert n H32 Hn.
  apply (below_32 (λ n, n < 16 → hex_val (hex_upper n) = Some n)).
  vm_compute. repeat (constructor; [done|]). constructor.
Qed.

Lemma unquote_quoter safe b rest :
  b < 256 → in_set 37 safe = false →
  unquote_bytes (quoter safe b ++ rest) = b :: unquote_bytes rest.
Proof.
  intros Hb H37. unfold quoter.
  destruct (always_safe b || in_set b safe) eqn:Hs.
  - cbn [app unquote_bytes].
    destruct (N.eqb_spec b 37) as [->|_]; [|done].
    by rewrite H37 in Hs.
  - cbn [app unquote_bytes]. change (37 =? 37) with true. cbn iota.
    pose proof (N.Div0.div_mod b 16) as Hdm.
    pose proof (N.mod_lt b 16) as Hm.
    set (q := b / 16) in *. set (r := b mod 16) in *. clearbody q r.
    rewrite !hex_val_upper by lia. cbn [default from_option id]. f_equal. lia.
Qed.

Lemma unquote_quote safe bs :
  Forall (λ b, b < 256) bs → in_set 37 safe = false →
  unquote_bytes (flat_map (quoter safe) bs) = bs.
Proof.
  intros Hbs H37. induction Hbs as [|b bs Hb _ IH]; [done|].
  cbn [flat_map]. by rewrite unquote_quoter, IH.
Qed.

Lemma replace_char_id old new (s : str) :
  old ∉ s → replace_char old new s = s.
Proof.
  unfold replace_char. induction s as [|c s IH]; intros Hs; [done|].
  apply not_elem_of_cons in Hs as [Hc Hs]. cbn [map].
  destruct (N.eqb_spec c old); [done|]. f_equal. by apply IH.
Qed.

Lemma replace_char_back a b (s : str) :
  b ∉ s → replace_char b a (replace_char a b s) = s.
Proof.
  unfold replace_char. induction s as [|c s IH]; intros Hs; [done|].
  apply not_elem_of_cons in Hs as [Hc Hs]. cbn [map].
  rewrite IH by done. f_equal.
  destruct (N.eqb_spec c a) as [->|Hca].
  - by rewrite N.eqb_refl.
  - by destruct (N.eqb_spec c b).
Qed.

Lemma quote_no_plus s safe q :
  quote s safe = Some q → in_set 43 safe = false → 43 ∉ q.
Proof.
  intros Hq Hsafe Hin.
  assert (encodable s) as Hs.
  { unfold quote in Hq. destruct (utf8_encode s) eqn:Hbs; [|done].
    by eapply utf8_encode_inv. }
  pose proof (quote_safe _ _ _ Hs Hq) as Hall.
  rewrite Forall_forall in Hall. specialize (Hall _ Hin).
  by rewrite Hsafe in Hall.
Qed.

Lemma unquote_plus_quote_plus s q : quote_plus s = Some q → unquote_plus q = s.
Proof.
  unfold quote_plus, unquote_plus.
  destruct (in_set 32 s).
  - destruct (quote s [32]) as [q0|] eqn:Hq; [|done]. intros [= <-].
    rewrite replace_char_back by (by eapply quote_no_plus).
    unfold quote in Hq.
    destruct (utf8_encode s) as [bs|] eqn:Hbs; [|done].
    injection Hq as <-.
    destruct (utf8_encode_Some s (utf8_encode_inv _ _ Hbs)) as (bs' & Hbs' & Hlt).
    rewrite Hbs in Hbs'. injection Hbs' as <-.
    rewrite unquote_quote by done. by apply utf8_decode_encode.
  - intros Hq. rewrite replace_char_id by (by eapply quote_no_plus).
    unfold quote in Hq.
    destruct (utf8_encode s) as [bs|] eqn:Hbs; [|done].
    injection Hq as <-.
    destruct (utf8_encode_Some s (utf8_encode_inv _ _ Hbs)) as (bs' & Hbs' & Hlt).
    rewrite Hbs in Hbs'. injection Hbs' as <-.
    rewrite unquote_quote by done. by apply utf8_decode_encode.
Qed.

Lemma quote_plus_no_amp s q : quote_plus s = Some q → amp ∉ q.
Proof.
  intros Hq Hin.
  destruct (quote_plus_Some s (quote_plus_inv _ _ Hq)) as (q' & Hq' & Hall).
  rewrite Hq in Hq'. injection Hq' as <-.
  rewrite Forall_forall in Hall. by specialize (Hall _ Hin).
Qed.

(** X8. The URL determines the values it was built from: two calls that
    return the same URL were given the same language, the same region
    and, an empty category counting as none, the same category. *)
Theorem build_url_injective l r c l' r' c' u :
  build_url l r c = Some u → build_url l' r' c' = Some u →
  l = l' ∧ r = r' ∧ effective c = effective c'.
Proof.
  rewrite !build_url_eq.
  destruct (quote_plus l) as [ql|] eqn:Hl; cbn [mbind option_bind]; [|done].
  destruct (quote_plus r) as [qr|] eqn:Hr; cbn [mbind option_bind]; [|done].
  destruct (quote_plus l') as [ql'|] eqn:Hl'; cbn [mbind option_bind];
    [|by intros _ ?].
  destruct (quote_plus r') as [qr'|] eqn:Hr'; cbn [mbind option_bind];
    [|by intros _ ?].
  pose proof (quote_plus_no_amp _ _ Hl) as Al.
  pose proof (quote_plus_no_amp _ _ Hl') as Al'.
  pose proof (quote_plus_no_amp _ _ Hr) as Ar.
  pose proof (quote_plus_no_amp _ _ Hr') as Ar'.
  apply unquote_plus_quote_plus in Hl, Hl', Hr, Hr'.
  assert (∀ X X', BASE_URL ++ U "?hl=" ++ ql ++ U "&gl=" ++ qr ++ X
                  = BASE_URL ++ U "?hl=" ++ ql' ++ U "&gl=" ++ qr' ++ X' →
                  ql = ql' ∧ qr ++ X = qr' ++ X') as Hsplit.
  { intros X X' H. apply app_inv_head in H. apply app_inv_head in H.
    pose proof (split_first_unique _ _ _ _ _ H Al Al') as ->.
    split; [done|]. apply app_inv_head in H.
    change (U "&gl=") with ([amp] ++ U "gl=") in H.
    rewrite <- !app_assoc in H. by do 2 apply app_inv_head in H. }
  destruct (effective c) as [x|] eqn:Hc, (effective c') as [x'|] eqn:Hc'.
  - destruct (quote_plus x) as [qc|] eqn:Hx; cbn [mbind option_bind]; [|done].
    destruct (quote_plus x') as [qc'|] eqn:Hx'; cbn [mbind option_bind];
      [|by intros _ ?].
    intros <- H. apply (inj Some) in H. symmetry in H.
    apply Hsplit in H as [-> H].
    pose proof (split_first_unique _ _ _ _ _ H Ar Ar') as ->.
    do 2 apply app_inv_head in H. subst qc'.
    apply unquote_plus_quote_plus in Hx, Hx'. by simplify_eq.
  - destruct (quote_plus x) as [qc|] eqn:Hx; cbn [mbind option_bind]; [|done].
    intros <- H. apply (inj Some) in H. symmetry in H.
    rewrite <- (app_nil_r qr') in H.
    apply Hsplit in H as [-> H]. rewrite app_nil_r in H.
    destruct Ar'. rewrite <- H. set_solver.
  - destruct (quote_plus x') as [qc'|] eqn:Hx'; cbn [mbind option_bind];
      [|by intros _ ?].
    intros <- H. apply (inj Some) in H. symmetry in H.
    rewrite <- (app_nil_r qr) in H.
    apply Hsplit in H as [-> H]. rewrite app_nil_r in H.
    destruct Ar. rewrite H. set_solver.
  - intros <- H. apply (inj Some) in H. symmetry in H.
    rewrite <- (app_nil_r qr), <- (app_nil_r qr') in H.
    apply Hsplit in H as [-> H]. rewrite !app_nil_r in H. by simplify_eq.
Qed.

End UrlMore.

(** * The text of the output *)

Module OutputMore.
Import Url Output Readers Spec.
Import RoundTrip.

Lemma str_join_infix (sep : str) parts x :
  x ∈ parts → ∃ pre post, str_join sep parts = pre ++ x ++ post.
Proof.
  induction parts as [|p parts IH]; [by intros ?%elem_of_nil|].
  intros [->|Hin]%elem_of_cons.
  - destruct parts as [|p' parts].
    + exists [], []. cbn. by rewrite app_nil_r.
    + exists [], (sep ++ str_join sep (p' :: parts)). by rewrite join_cons2.
  - destruct (IH Hin) as (pre & post & Heq).
    destruct parts as [|p' parts]; [by apply elem_of_nil in Hin|].
    exists (p ++ sep ++ pre), post.
    rewrite join_cons2, Heq. by rewrite <- !app_assoc.
Qed.

Lemma flat_map_infix {A} (f : A → str) l x :
  x ∈ l → ∃ pre post, flat_map f l = pre ++ f x ++ post.
Proof.
  intros (l1 & l2 & ->)%list_elem_of_split.
  exists (flat_map f l1), (flat_map f l2).
  by rewrite flat_map_app.
Qed.

Lemma escape_plain s : plain s → flat_map escape_char s = s.
Proof.
  induction 1 as [|c s (Hc & Hq & Hb) _ IH]; [done|].
  cbn [flat_map]. rewrite IH. unfold escape_char.
  destruct (N.eqb_spec c 92); [done|].
  destruct (N.eqb_spec c dquote); [done|].
  destruct (N.eqb_spec c 8); [lia|]. destruct (N.eqb_spec c 12); [lia|].
  destruct (N.eqb_spec c 10); [lia|]. destruct (N.eqb_spec c 13); [lia|].
  destruct (N.eqb_spec c 9); [lia|]. destruct (N.ltb_spec c 32); [lia|done].
Qed.

Lemma entry_object_text e :
  plain (app_id e) → plain (title e) →
  iterencode 1 (entry_json e) = object_text e.
Proof.
  intros Hid Ht. unfold entry_json, object_text.
  cbn [iterencode map fst snd str_join]. unfold encode_basestring.
  rewrite (escape_plain _ Hid), (escape_plain _ Ht).
  by repeat (rewrite <- ?app_assoc; cbn [app U ord_string flat_map]).
Qed.

(** X9. In the JSON output, an entry whose identifier and title hold no
    control character, double quote or backslash is written as an object
    with the three keys in the order rank, app_id, title, the two strings
    exactly as they are: characters outside ASCII are not escaped. *)
Theorem output_json_verbatim es e :
  e ∈ es → plain (app_id e) → plain (title e) →
  ∃ pre post, output_json es = pre ++ object_text e ++ post.
Proof.
  intros Hin Hid Ht. unfold output_json.
  destruct es as [|e0 es]; [by apply elem_of_nil in Hin|].
  change (map entry_json (e0 :: es))
    with (entry_json e0 :: (entry_json <$> es)).
  rewrite iterencode_list.
  destruct (str_join_infix (44 :: newline_indent 1)
              (iterencode 1 <$> (entry_json <$> e0 :: es))
              (iterencode 1 (entry_json e))) as (pre & post & Heq).
  { apply list_elem_of_fmap_2. by apply list_elem_of_fmap_2. }
  rewrite fmap_cons in Heq. rewrite Heq, (entry_object_text _ Hid Ht).
  exists (91 :: newline_indent 1 ++ pre),
         (post ++ newline_indent 0 ++ 93 :: [10]).
  cbn [app]. by rewrite <- !app_assoc.
Qed.

Lemma uint_digits_plain u : existsb needs_quotes (uint_digits u) = false.
Proof. induction u; cbn [uint_digits existsb]; by rewrite ?IHu. Qed.

Lemma int_str_plain z : existsb needs_quotes (int_str z) = false.
Proof.
  unfold int_str. destruct (Z.to_int z); cbn [existsb];
    by rewrite uint_digits_plain.
Qed.

Lemma bare_plain s : bare s → existsb needs_quotes s = false.
Proof.
  induction 1 as [|c s Hc _ IH]; [done|]. cbn [existsb]. by rewrite Hc, IH.
Qed.

Lemma csv_field_plain s : existsb needs_quotes s = false → csv_field s = s.
Proof. intros H. unfold csv_field. rewrite H. by apply csv_body_plain. Qed.

(** X10. In the CSV output, an entry whose identifier and title hold no
    comma, double quote, carriage return or line feed is written on a line
    of its own as rank,identifier,title, unquoted, ended by CR LF. *)
Theorem output_csv_verbatim es e :
  e ∈ es → bare (app_id e) → bare (title e) →
  ∃ pre post, output_csv es = pre ++ row_text e ++ post.
Proof.
  intros Hin Hid Ht. unfold output_csv.
  destruct (flat_map_infix
              (λ entry, writerow [int_str (rank entry); app_id entry;
                                  title entry]) es e Hin)
    as (pre & post & ->).
  exists (writerow [U "rank"; U "app_id"; U "title"] ++ pre), post.
  rewrite <- !app_assoc. do 2 f_equal.
  unfold writerow, row_text. cbn [map str_join].
  rewrite (csv_field_plain _ (int_str_plain _)).
  rewrite (csv_field_plain _ (bare_plain _ Hid)).
  rewrite (csv_field_plain _ (bare_plain _ Ht)).
  by repeat (rewrite <- ?app_assoc; cbn [app U ord_string]).
Qed.

(** ** No raw control character in the JSON text *)











End OutputMore.

(** * More about [main] *)

Module MainMore.
Import Url Output Readers Spec.
Import SreFacts Patterns Loop ExtractMore RoundTrip MainSpec.

Section Runs.

Variable unescape : str → option str.
Variable fetch_html : str → option str.



(** X14. Reading the standard output of a run back, as JSON or as CSV
    after the header row, gives the rank, identifier and title of the
    entries extracted from the fetched page and trimmed to the limit, in
    order. *)
Theorem main_output_reads_back args run :
  main unescape fetch_html args = Some run →
  ∃ url html found,
    build_url (hl args) (gl args) (category args) = Some url
    ∧ fetch_html url = Some html
    ∧ extract_apps unescape html = Some found
    ∧ read_back (json_flag args) (stdout run)
      = Some (entry_tuple <$> trim_entries found (Some (limit args))).
Proof.
  intros (url & html & found & Hurl & Hfetch & Hfound & Hout & _)%main_status.
  exists url, html, found. split_and!; [done..|].
  rewrite Hout. unfold read_back. destruct (json_flag args).
  - rewrite loads_output_json. cbn [mbind option_bind json_tuples].
    apply mapM_fmap_Some, json_tuple_entry.
  - rewrite csv_reader_output_csv. cbn [mbind option_bind tail].
    apply mapM_fmap_Some, row_tuple_entry.
Qed.

End Runs.

End MainMore.

(** * Instances of the results above *)

Module MoreWitnesses.
Import Url Output Readers Spec.
Import ExtractWitnesses ExtractMore TrimMore UrlMore OutputMore MainMore.

Lemma extract_apps_sound_witness :
  ∃ pre o b h q c post,
    sample_page = pre ++ o ++ b ++ h ++ U "com.app.one" ++ q
                  ++ dquote :: c ++ gt_sign :: post
    ∧ ci (U "<a") o ∧ b ≠ [] ∧ gt_sign ∉ b ∧ ci HREF_PREFIX h
    ∧ U "com.app.one" ≠ [] ∧ amp ∉ U "com.app.one"
    ∧ dquote ∉ U "com.app.one"
    ∧ dquote ∉ q ∧ (q = [] ∨ head q = Some amp)
    ∧ gt_sign ∉ c.
Proof.
  apply (extract_apps_sound Some sample_page sample_entries
           {| rank := 1; app_id := U "com.app.one"; title := U "One Game" |}).
  - vm_compute. reflexivity.
  - apply list_elem_of_here.
Defined.

Lemma extract_apps_title_stripped_witness :
  head (U "One Game") = Some 79 ∧ isspace 79 = false.
Proof.
  split; [reflexivity|].
  apply (extract_apps_title_stripped Some sample_page sample_entries
           {| rank := 1; app_id := U "com.app.one"; title := U "One Game" |}).
  - vm_compute. reflexivity.
  - apply list_elem_of_here.
  - left. reflexivity.
Defined.

Lemma extract_apps_no_href_witness :
  extract_apps Some (U "<p>nothing <a name=top>here</a></p>") = Some [].
Proof.
  apply (extract_apps_no_href Some (U "<p>nothing <a name=top>here</a></p>")).
  vm_compute. reflexivity.
Defined.

Lemma trimmed_extraction_invariant_witness :
  trim_entries sample_entries (Some 1%Z) `prefix_of` sample_entries
  ∧ rank <$> trim_entries sample_entries (Some 1%Z)
    = seqZ 1 (Z.of_nat (length (trim_entries sample_entries (Some 1%Z))))
  ∧ Forall (λ e, app_id e ≠ []) (trim_entries sample_entries (Some 1%Z))
  ∧ NoDup (app_id <$> trim_entries sample_entries (Some 1%Z)).
Proof.
  apply (trimmed_extraction_invariant Some sample_page sample_entries
           (Some 1%Z)).
  vm_compute. reflexivity.
Defined.

Lemma build_url_unreserved_witness :
  build_url (U "ko") (U "KR") (Some (U "GAME"))
  = Some (BASE_URL ++ U "?hl=" ++ U "ko" ++ U "&gl=" ++ U "KR"
          ++ U "&category=" ++ U "GAME").
Proof.
  apply (build_url_unreserved (U "ko") (U "KR") (Some (U "GAME"))).
  - by repeat constructor.
  - by repeat constructor.
  - intros x [= <-]. by repeat constructor.
Defined.

Lemma build_url_injective_witness :
  U "ko" = U "ko" ∧ U "KR" = U "KR" ∧ effective None = effective (Some []).
Proof.
  apply (build_url_injective (U "ko") (U "KR") None
           (U "ko") (U "KR") (Some []) (BASE_URL ++ U "?hl=ko&gl=KR"));
    reflexivity.
Defined.

Lemma output_json_verbatim_witness :
  ∃ pre post,
    output_json sample_entries
    = pre ++ object_text {| rank := 1; app_id := U "com.app.one";
                            title := U "One Game" |} ++ post.
Proof.
  apply (output_json_verbatim sample_entries
           {| rank := 1; app_id := U "com.app.one"; title := U "One Game" |}).
  - apply list_elem_of_here.
  - by_compute.
  - by_compute.
Defined.

Lemma output_csv_verbatim_witness :
  ∃ pre post,
    output_csv sample_entries
    = pre ++ row_text {| rank := 1; app_id := U "com.app.one";
                         title := U "One Game" |} ++ post.
Proof.
  apply (output_csv_verbatim sample_entries
           {| rank := 1; app_id := U "com.app.one"; title := U "One Game" |}).
  - apply list_elem_of_here.
  - by repeat constructor.
  - by repeat constructor.
Defined.



Lemma main_output_reads_back_witness :
  ∃ url html found,
    build_url (U "ko") (U "KR") None = Some url
    ∧ Some sample_page = Some html
    ∧ extract_apps Some html = Some found
    ∧ read_back false (stdout sample_run)
      = Some (entry_tuple <$> trim_entries found (Some 1%Z)).
Proof.
  apply (main_output_reads_back Some (λ _, Some sample_page)
           sample_args sample_run).
  vm_compute. reflexivity.
Defined.

End MoreWitnesses.
